(** * zerver/filter: the RequestId filter and its id stores

    A shallow embedding of [filter/request_id.go].  Go methods become
    state-passing functions in a small monad [Go S] whose computations
    either return, panic, or block for ever on a mutex.  Calls that leave
    the package (on the request, the response, the logger, the filter
    chain and the store interface) are recorded in a trace, so that
    statements such as "the chain is never invoked" are statements about
    that trace. *)

From stdpp Require Import gmap strings list.

Open Scope string_scope.
Open Scope list_scope.

(** ** Go values *)

(** A non-nil [error].  [errors.Err] is gohper's string-based error type;
    [==] on interface values compares dynamic type and value, so an error
    of another dynamic type never equals an [errors.Err], whatever its
    text. *)
Inductive error_value : Type :=
| Err (msg : string)
| ForeignErr (msg : string).

#[global] Instance error_value_eq_dec : EqDecision error_value.
Proof. solve_decision. Defined.

(** The interface type [error]: [None] is [nil]. *)
Abbreviation error := (option error_value).
Abbreviation nil_error := (@None error_value).

Definition ErrRequestIDExist : error_value := Err "Request id already exist".

(** What a goroutine can panic with in this file. *)
Inductive panic_value : Type :=
| NilMapAssignment                (* assignment to entry in nil map *)
| NilDereference                  (* method call through a nil interface or pointer *)
| TypeAssertionFailed             (* x.(T) on a value whose dynamic type is not T *)
| UnlockOfUnlocked                (* sync: Unlock of unlocked RWMutex *)
| LoggerPanic (e : error)         (* raised by Logger.Panicln after printing *)
| ForeignPanic (msg : string).    (* raised by code outside this package *)

(** ** The monad of Go computations over a state [S] *)

Inductive Outcome (S A : Type) : Type :=
| Returned (a : A) (s : S)
| Panicked (p : panic_value) (s : S)
| Blocked (s : S).
Arguments Returned {S A} a s.
Arguments Panicked {S A} p s.
Arguments Blocked {S A} s.

Definition Go (S A : Type) : Type := S → Outcome S A.

#[global] Instance Go_ret {S} : MRet (Go S) := λ A a s, Returned a s.

#[global] Instance Go_bind {S} : MBind (Go S) := λ A B k c s,
  match c s with
  | Returned a s' => k a s'
  | Panicked p s' => Panicked p s'
  | Blocked s' => Blocked s'
  end.

Definition get {S} : Go S S := λ s, Returned s s.
Definition modify {S} (f : S → S) : Go S unit := λ s, Returned () (f s).
Definition panic {S A} (p : panic_value) : Go S A := λ s, Panicked p s.

(** The state an outcome ends in. *)
Definition final {S A} (o : Outcome S A) : S :=
  match o with
  | Returned _ s | Panicked _ s | Blocked s => s
  end.

(** Run a computation on a component [T] of a larger state [S]. *)
Definition zoom {S T A} (proj : S → T) (upd : T → S → S) (c : Go T A) : Go S A :=
  λ s, match c (proj s) with
       | Returned a t => Returned a (upd t s)
       | Panicked p t => Panicked p (upd t s)
       | Blocked t => Blocked (upd t s)
       end.

(** ** sync.RWMutex, as far as [Lock] and [Unlock] go *)

Inductive RWMutex : Type := Free | Held.

#[global] Instance RWMutex_eq_dec : EqDecision RWMutex.
Proof. solve_decision. Defined.

(** ** zerver's environment, as far as this file uses it *)

(** [component.Redis] and [zerver.Logger] live outside this file; only
    their identity matters here. *)
Inductive Redis : Type := RedisHandle (n : nat).
Inductive Logger : Type := LoggerHandle (n : nat).

#[global] Instance Redis_eq_dec : EqDecision Redis.
Proof. solve_decision. Defined.
#[global] Instance Logger_eq_dec : EqDecision Logger.
Proof. solve_decision. Defined.

(** A non-nil [interface{}] handed out by [env.Component]. *)
Inductive component_value : Type :=
| RedisComponent (r : Redis)          (* dynamic type *component.Redis *)
| OtherComponent (name : string).     (* any other dynamic type *)

Record Enviroment : Type := {
  Component : string → option component_value * error;
  EnvLogger : option Logger;
}.

(** ** MemIDStore *)

(** [requests] is a Go map, [None] being the nil map: reading and deleting
    on it are allowed, assigning to it panics. *)
Record MemIDStore : Type := {
  requests : option (gmap string unit);
  lock : RWMutex;
}.

(** [new(MemIDStore)]: the zero value. *)
Definition new_MemIDStore : MemIDStore := {| requests := None; lock := Free |}.

Definition mutex_Lock : Go MemIDStore unit := λ m,
  match lock m with
  | Free => Returned () {| requests := requests m; lock := Held |}
  | Held => Blocked m
  end.

Definition mutex_Unlock : Go MemIDStore unit := λ m,
  match lock m with
  | Held => Returned () {| requests := requests m; lock := Free |}
  | Free => Panicked UnlockOfUnlocked m
  end.

(** [_, has := m.requests[id]] *)
Definition map_has (id : string) : Go MemIDStore bool := λ m,
  Returned (match requests m with
            | Some r => bool_decide (is_Some (r !! id))
            | None => false
            end) m.

(** [m.requests[id] = struct{}{}] *)
Definition map_assign (id : string) : Go MemIDStore unit := λ m,
  match requests m with
  | Some r => Returned () {| requests := Some (<[id := ()]> r); lock := lock m |}
  | None => Panicked NilMapAssignment m
  end.

(** [delete(m.requests, id)] *)
Definition map_delete (id : string) : Go MemIDStore unit := λ m,
  Returned () {| requests := delete id <$> requests m; lock := lock m |}.

Definition MemIDStore_Init (_ : Enviroment) : Go MemIDStore error := λ _,
  Returned nil_error {| requests := Some ∅; lock := Free |}.

Definition MemIDStore_Destroy : Go MemIDStore unit := λ m,
  Returned () {| requests := None; lock := lock m |}.

Definition MemIDStore_Save (id : string) : Go MemIDStore error :=
  mutex_Lock ;;
  has ← map_has id;
  err ← (if has : bool then mret (Some ErrRequestIDExist)
         else map_assign id ;; mret nil_error);
  mutex_Unlock ;;
  mret err.

Definition MemIDStore_Remove (id : string) : Go MemIDStore error :=
  mutex_Lock ;;
  map_delete id ;;
  mutex_Unlock ;;
  mret nil_error.

(** [id] is currently claimed. *)
Definition member (id : string) (m : MemIDStore) : Prop :=
  ∃ r, requests m = Some r ∧ is_Some (r !! id).

(** The store has been initialised and not destroyed. *)
Definition initialised (m : MemIDStore) : Prop := is_Some (requests m).

(** No goroutine is inside one of the store's critical sections. *)
Definition idle (m : MemIDStore) : Prop := lock m = Free.

#[global] Instance member_dec id m : Decision (member id m).
Proof.
  unfold member. destruct (requests m) as [r|].
  - destruct (decide (is_Some (r !! id))) as [Hy|Hn].
    + left. eauto.
    + right. intros (r' & [= <-] & ?). done.
  - right. intros (r' & [=] & ?).
Defined.

#[global] Instance initialised_dec m : Decision (initialised m).
Proof. unfold initialised. apply _. Defined.

#[global] Instance idle_dec m : Decision (idle m).
Proof. unfold idle. apply _. Defined.

(** ** defval (gohper): fill a zero value with a default *)

(** [defval.String(&s, def)] *)
Definition defval_String (s def : string) : string :=
  if bool_decide (s = "") then def else s.

(** [defval.Nil(&v, def)] *)
Definition defval_Nil {A} (v : option A) (def : A) : option A :=
  match v with
  | Some _ => v
  | None => Some def
  end.

(** ** The IDStore interface *)

(** [zerver.Component] ([Init], [Destroy]) together with [Save] and
    [Remove], over the state [St] of the implementation. *)
Class IDStore (St : Type) : Type := {
  Init : Enviroment → Go St error;
  Destroy : Go St unit;
  Save : string → Go St error;
  Remove : string → Go St error;
}.

#[global] Instance MemIDStore_IDStore : IDStore MemIDStore := {|
  Init := MemIDStore_Init;
  Destroy := MemIDStore_Destroy;
  Save := MemIDStore_Save;
  Remove := MemIDStore_Remove;
|}.

(** ** RedisIDStore *)

Record RedisIDStore : Type := {
  Key : string;
  redis : option Redis;
}.

Section RedisIDStore.
(** The name [component.COMP_REDIS], declared in package [component]. *)
Variable COMP_REDIS : string.

(** The remote service behind the connection, the replies it gives, the
    method [Exec] of [component.Redis] and redigo's [redis.Bool]: all of
    them live outside this file. *)
Variable Backend : Type.
Variable Reply : Type.
Variable Exec : string → list string → Go Backend (option Reply * error).
Variable redis_Bool : option Reply * error → bool * error.

Definition RedisIDStore_Init (env : Enviroment) : Go RedisIDStore error := λ r,
  let '(redis, err) := Component env COMP_REDIS in
  match err, redis with
  | None, None => Returned (Some (Err "component redis isn't loaded")) r
  | None, Some (RedisComponent c) =>
      Returned nil_error {| Key := defval_String (Key r) "RequestID"; redis := Some c |}
  | None, Some (OtherComponent _) => Panicked TypeAssertionFailed r
  | Some _, _ => Returned err r
  end.

Definition RedisIDStore_Destroy : Go RedisIDStore unit := λ r,
  Returned () {| Key := Key r; redis := None |}.

(** [r.redis.Exec(cmd, r.Key, id)], on the pair of the store and the
    service it talks to. *)
Definition redis_Exec (cmd id : string)
  : Go (RedisIDStore * Backend) (option Reply * error) := λ '(r, b),
  match redis r with
  | None => Panicked NilDereference (r, b)
  | Some _ => zoom snd (λ b' '(r', _), (r', b')) (Exec cmd [Key r; id]) (r, b)
  end.

Definition RedisIDStore_Save (id : string) : Go (RedisIDStore * Backend) error :=
  reply ← redis_Exec "SADD" id;
  let '(success, err) := redis_Bool reply in
  mret (if bool_decide (err = None) && negb success
        then Some ErrRequestIDExist else err).

Definition RedisIDStore_Remove (ip id : string) : Go (RedisIDStore * Backend) error :=
  '(_, err) ← redis_Exec "SREM" id;
  mret err.

(** [Remove] above has the source's two parameters, of which [ip] is not
    used; the interface asks for one.  The instance passes the empty
    string for it. *)
#[local] Instance RedisIDStore_IDStore : IDStore (RedisIDStore * Backend) := {|
  Init env := zoom fst (λ r' '(_, b), (r', b)) (RedisIDStore_Init env);
  Destroy := zoom fst (λ r' '(_, b), (r', b)) RedisIDStore_Destroy;
  Save := RedisIDStore_Save;
  Remove := RedisIDStore_Remove "";
|}.
End RedisIDStore.

(** ** The request, and the calls the filter makes on its collaborators *)

(** [zerver.Request], as far as the filter reads it.  [Header] answers the
    empty string for a header the request does not carry. *)
Record Request : Type := {
  Method : string;
  Header : string → string;
  RemoteIP : string;
}.

Inductive Call : Type :=
| ReqMethod                              (* req.Method() *)
| ReqHeader (name : string)              (* req.Header(name) *)
| ReqRemoteIP                            (* req.RemoteIP() *)
| RespReportBadRequest                   (* resp.ReportBadRequest() *)
| RespReportForbidden                    (* resp.ReportForbidden() *)
| RespSend (key value : string)          (* resp.Send(key, value) *)
| ChainCall                              (* chain(req, resp) *)
| StoreInit                              (* ri.Store.Init(env) *)
| StoreSave (id : string)                (* ri.Store.Save(id) *)
| StoreRemove (id : string)              (* ri.Store.Remove(id) *)
| EnvLoggerCall                          (* env.Logger() *)
| LoggerPanicln (lg : Logger) (e : error). (* ri.logger.Panicln(err) *)

#[global] Instance Call_eq_dec : EqDecision Call.
Proof. solve_decision. Defined.

(** The key under which a request is claimed:
    [id := req.RemoteIP() + ":" + reqId]. *)
Definition scope_id (ip reqId : string) : string := ip +:+ ":" +:+ reqId.

(** ** RequestId *)

Section RequestId.
(** Some implementation of the interface other than [MemIDStore]. *)
Context {X : Type} `{!IDStore X}.

(** A non-nil value of interface type [IDStore], with the state of the
    store it points to. *)
Inductive IDStoreValue : Type :=
| OfMem (m : MemIDStore)
| OfOther (x : X).

Definition dispatch {A} (onMem : Go MemIDStore A) (onOther : Go X A)
  : Go IDStoreValue A := λ v,
  match v with
  | OfMem m => zoom (λ _, m) (λ m' _, OfMem m') onMem v
  | OfOther x => zoom (λ _, x) (λ x' _, OfOther x') onOther v
  end.

Definition IDStoreValue_Init (env : Enviroment) : Go IDStoreValue error :=
  dispatch (Init env) (Init env).
Definition IDStoreValue_Save (id : string) : Go IDStoreValue error :=
  dispatch (Save id) (Save id).
Definition IDStoreValue_Remove (id : string) : Go IDStoreValue error :=
  dispatch (Remove id) (Remove id).

Record RequestId : Type := {
  Store : option IDStoreValue;
  HeaderName : string;
  PassingOnNoId : bool;
  Error : string;
  ErrorOverlap : string;
  logger : option Logger;
}.

Definition set_Store (v : option IDStoreValue) (ri : RequestId) : RequestId :=
  {| Store := v; HeaderName := HeaderName ri; PassingOnNoId := PassingOnNoId ri;
     Error := Error ri; ErrorOverlap := ErrorOverlap ri; logger := logger ri |}.

(** The filter object together with the calls made so far, oldest
    first. *)
Record World : Type := {
  self : RequestId;
  calls : list Call;
}.

Definition record (c : Call) : Go World unit :=
  modify (λ w, {| self := self w; calls := calls w ++ [c] |}).

Definition on_self {A} (c : Go RequestId A) : Go World A :=
  zoom self (λ ri w, {| self := ri; calls := calls w |}) c.

Definition on_Store {A} (c : Go (option IDStoreValue) A) : Go World A :=
  on_self (zoom Store set_Store c).

(** A method call through the interface value [ri.Store]; through nil it
    panics before anything is called. *)
Definition through_Store {A} (c : Call) (method : Go IDStoreValue A) : Go World A :=
  ri ← on_self get;
  match Store ri with
  | None => panic NilDereference
  | Some v => record c ;; on_Store (zoom (λ _, v) (λ v' _, Some v') method)
  end.

Definition req_Method (req : Request) : Go World string :=
  record ReqMethod ;; mret (Method req).
Definition req_Header (req : Request) (name : string) : Go World string :=
  record (ReqHeader name) ;; mret (Header req name).
Definition req_RemoteIP (req : Request) : Go World string :=
  record ReqRemoteIP ;; mret (RemoteIP req).

Definition resp_ReportBadRequest : Go World unit := record RespReportBadRequest.
Definition resp_ReportForbidden : Go World unit := record RespReportForbidden.
Definition resp_Send (key value : string) : Go World unit := record (RespSend key value).

(** [ri.logger.Panicln(err)]: prints, then panics. *)
Definition logger_Panicln (err : error) : Go World unit :=
  ri ← on_self get;
  match logger ri with
  | None => panic NilDereference
  | Some lg => record (LoggerPanicln lg err) ;; panic (LoggerPanic err)
  end.

(** The rest of the filter chain.  What it does to the response is its
    own business; what happens to the shared store while it runs (it may
    itself come back to this filter, and other requests are served
    meanwhile) is its effect on the [Store] field's target. *)
Definition FilterChain : Type := Request → Go (option IDStoreValue) unit.

Definition call_chain (chain : FilterChain) (req : Request) : Go World unit :=
  record ChainCall ;; on_Store (chain req).

Definition RequestId_Init (env : Enviroment) : Go World error :=
  on_self (modify (λ ri, set_Store (defval_Nil (Store ri) (OfMem new_MemIDStore)) ri)) ;;
  through_Store StoreInit (IDStoreValue_Init env) ;;
  on_self (modify (λ ri,
    {| Store := Store ri;
       HeaderName := defval_String (HeaderName ri) "X-Request-Id";
       PassingOnNoId := PassingOnNoId ri;
       Error := defval_String (Error ri) "header value X-Request-Id can't be empty";
       ErrorOverlap :=
         defval_String (ErrorOverlap ri) "request already accepted before, please wait";
       logger := logger ri |})) ;;
  record EnvLoggerCall ;;
  on_self (modify (λ ri,
    {| Store := Store ri; HeaderName := HeaderName ri;
       PassingOnNoId := PassingOnNoId ri; Error := Error ri;
       ErrorOverlap := ErrorOverlap ri; logger := EnvLogger env |})) ;;
  mret nil_error.

Definition RequestId_Filter (req : Request) (chain : FilterChain) : Go World unit :=
  method ← req_Method req;
  if bool_decide (method = "GET") then
    call_chain chain req
  else
    ri ← on_self get;
    reqId ← req_Header req (HeaderName ri);
    if bool_decide (reqId = "") then
      if PassingOnNoId ri then
        call_chain chain req
      else
        resp_ReportBadRequest ;;
        resp_Send "error" (Error ri)
    else
      ip ← req_RemoteIP req;
      let id := scope_id ip reqId in
      err ← through_Store (StoreSave id) (IDStoreValue_Save id);
      if bool_decide (err = Some ErrRequestIDExist) then
        resp_ReportForbidden ;;
        resp_Send "error" (ErrorOverlap ri)
      else if bool_decide (err ≠ None) then
        logger_Panicln err
      else
        call_chain chain req ;;
        through_Store (StoreRemove id) (IDStoreValue_Remove id) ;;
        mret ().

Definition RequestId_Destroy : Go World unit := mret ().
End RequestId.

(** The calls made while reaching outcome [o] from [w]. *)
Definition made {X A} (w : @World X) (o : Outcome (@World X) A) : list Call :=
  drop (length (calls w)) (calls (final o)).

(** Some call on the logger was made. *)
Definition logged (cs : list Call) : Prop := ∃ lg e, LoggerPanicln lg e ∈ cs.

(** ** Sequences of calls on one MemIDStore *)

Inductive Op : Type :=
| OpSave (id : string)
| OpRemove (id : string).

#[global] Instance Op_eq_dec : EqDecision Op.
Proof. solve_decision. Defined.

Definition run_op (o : Op) : Go MemIDStore error :=
  match o with
  | OpSave id => MemIDStore_Save id
  | OpRemove id => MemIDStore_Remove id
  end.

(** Run the calls one after the other and collect what they return. *)
Fixpoint run_ops (ops : list Op) : Go MemIDStore (list error) :=
  match ops with
  | [] => mret []
  | o :: ops' => e ← run_op o; es ← run_ops ops'; mret (e :: es)
  end.

(** Of the results [es] of [ops], those of the calls [Save(k)], in order. *)
Fixpoint results_of_Save (k : string) (ops : list Op) (es : list error) : list error :=
  match ops, es with
  | OpSave id :: ops', e :: es' =>
      if bool_decide (id = k) then e :: results_of_Save k ops' es'
      else results_of_Save k ops' es'
  | OpRemove _ :: ops', _ :: es' => results_of_Save k ops' es'
  | _, _ => []
  end.

(** ** A remote set service, to run the stores and the filter on *)

Module Scenario.
(** Modelled from the spec: [component.Redis] and the service behind it
    are not in this file.  Section 6, shared backend transport: one
    request/response pair per call, "atomic add to named set" and
    "remove from named set", answering success or failure plus whether
    the member was newly added.  [up] is whether the service can be
    reached. *)
Record Service : Type := {
  up : bool;
  sets : gmap string (gset string);
}.

Definition service_Exec (cmd : string) (args : list string)
  : Go Service (option Z * error) := λ sv,
  if up sv then
    match args with
    | [key; id] =>
        let set := default ∅ (sets sv !! key) in
        let present := if bool_decide (id ∈ set) then 1%Z else 0%Z in
        if bool_decide (cmd = "SADD") then
          Returned (Some (1 - present)%Z, None)
                   {| up := true; sets := <[key := {[id]} ∪ set]> (sets sv) |}
        else if bool_decide (cmd = "SREM") then
          Returned (Some present, None)
                   {| up := true; sets := <[key := set ∖ {[id]}]> (sets sv) |}
        else Returned (None, Some (ForeignErr "ERR unknown command")) sv
    | _ => Returned (None, Some (ForeignErr "ERR wrong number of arguments")) sv
    end
  else Returned (None, Some (ForeignErr "dial tcp: connection refused")) sv.

(** redigo's [redis.Bool] on integer replies: an error is passed on, an
    integer is true when it is not zero, a nil reply is an error. *)
Definition redigo_Bool (r : option Z * error) : bool * error :=
  match r with
  | (_, Some e) => (false, Some e)
  | (Some n, None) => (bool_decide (n ≠ 0%Z), None)
  | (None, None) => (false, Some (ForeignErr "redigo: nil returned"))
  end.

Definition COMP_REDIS : string := "Redis".

Definition RedisStore : Type := RedisIDStore * Service.

#[global] Instance RedisStore_IDStore : IDStore RedisStore :=
  RedisIDStore_IDStore COMP_REDIS Service Z service_Exec redigo_Bool.

(** An environment in which the redis component is loaded, and one in
    which it is not. *)
Definition env_with_redis : Enviroment := {|
  Component name :=
    if bool_decide (name = COMP_REDIS) then (Some (RedisComponent (RedisHandle 0)), None)
    else (None, Some (ForeignErr "component not found"));
  EnvLogger := Some (LoggerHandle 0);
|}.

Definition env_without_redis : Enviroment := {|
  Component name := (None, None);
  EnvLogger := Some (LoggerHandle 0);
|}.

Definition service_up : Service := {| up := true; sets := ∅ |}.
Definition service_down : Service := {| up := false; sets := ∅ |}.

(** A filter as a program would declare it before [Init]: every field
    left at its zero value but the store. *)
Definition fresh (store : option (@IDStoreValue RedisStore)) : @World RedisStore := {|
  self := {| Store := store; HeaderName := ""; PassingOnNoId := false;
             Error := ""; ErrorOverlap := ""; logger := None |};
  calls := [];
|}.

Definition redis_store (sv : Service) : @IDStoreValue RedisStore :=
  OfOther ({| Key := ""; redis := None |}, sv).

(** The world after [Init], or the world [Init] broke off in. *)
Definition initialised_with (env : Enviroment) (store : option (@IDStoreValue RedisStore))
  : @World RedisStore := final (RequestId_Init env (fresh store)).

Definition post (ip token : string) : Request := {|
  Method := "POST";
  Header name := if bool_decide (name = "X-Request-Id") then token else "";
  RemoteIP := ip;
|}.

(** A chain that returns and leaves the store alone. *)
Definition handler : @FilterChain RedisStore := λ _, mret ().

(** A chain during which the service becomes unreachable. *)
Definition handler_during_outage : @FilterChain RedisStore := λ _,
  modify (λ store,
    match store with
    | Some (OfOther (r, sv)) => Some (OfOther (r, {| up := false; sets := sets sv |}))
    | _ => store
    end).

(** A chain that panics. *)
Definition handler_panicking : @FilterChain RedisStore := λ _,
  panic (ForeignPanic "handler failed").

Definition get_request (ip token : string) : Request := {|
  Method := "GET";
  Header name := if bool_decide (name = "X-Request-Id") then token else "";
  RemoteIP := ip;
|}.

(** An initialised [MemIDStore] holding [keys]. *)
Definition mem_store (keys : list string) : MemIDStore := {|
  requests := Some (list_to_map ((λ k, (k, ())) <$> keys));
  lock := Free;
|}.

(** An initialised filter over a [MemIDStore] holding [keys]. *)
Definition serving (keys : list string) : @World RedisStore :=
  let w := initialised_with env_with_redis None in
  {| self := set_Store (Some (OfMem (mem_store keys))) (self w); calls := [] |}.

(** An initialised filter over the remote store. *)
Definition serving_remote (sv : Service) : @World RedisStore :=
  let w := initialised_with env_with_redis (Some (redis_store sv)) in
  {| self := self w; calls := [] |}.
End Scenario.

(** ** The keys a MemIDStore holds, and the store as a set *)

(** The keys of [m.requests]; a nil map has none. *)
Definition claimed (m : MemIDStore) : gset string :=
  match requests m with
  | Some r => dom r
  | None => ∅
  end.

(** What a sequence of calls returns, and what it leaves claimed, on a
    plain set of keys: [Save(id)] adds [id] and answers "already exists"
    when it was there, [Remove(id)] takes it out. *)
Fixpoint set_run (ops : list Op) (s : gset string) : list error * gset string :=
  match ops with
  | [] => ([], s)
  | OpSave id :: ops' =>
      let '(es, s') := set_run ops' ({[id]} ∪ s) in
      ((if decide (id ∈ s) then Some ErrRequestIDExist else nil_error) :: es, s')
  | OpRemove id :: ops' =>
      let '(es, s') := set_run ops' (s ∖ {[id]}) in
      (nil_error :: es, s')
  end.

(** The character that [scope_id] puts between address and token. *)
Definition delimiter : Ascii.ascii :=
  match ":" with
  | String c _ => c
  | EmptyString => Ascii.zero
  end.

(** The character [c] occurs in [s]. *)
Fixpoint occurs (c : Ascii.ascii) (s : string) : bool :=
  match s with
  | EmptyString => false
  | String a s' => bool_decide (a = c) || occurs c s'
  end.

(** ** Goroutines inside Save *)

(** Where a goroutine stands in [MemIDStore.Save]: before each of the
    statements that touch the store, or done. *)
Inductive SavePoint : Type :=
| BeforeLock                      (* m.lock.Lock() *)
| BeforeLookup                    (* _, has := m.requests[id] *)
| BeforeBranch (has : bool)       (* if has { ... } else { ... } *)
| BeforeUnlock (err : error)      (* m.lock.Unlock() *)
| HasReturned (err : error)       (* return *)
| HasPanicked (p : panic_value).

#[global] Instance panic_value_eq_dec : EqDecision panic_value.
Proof. solve_decision. Defined.

#[global] Instance SavePoint_eq_dec : EqDecision SavePoint.
Proof. solve_decision. Defined.

(** The next statement of [Save(id)] at point [pt], run on [m].  [None]
    when the goroutine cannot move: it is parked on the mutex, or it has
    left [Save]. *)
Definition Save_step (id : string) (pt : SavePoint) (m : MemIDStore)
  : option (SavePoint * MemIDStore) :=
  match pt with
  | BeforeLock =>
      match mutex_Lock m with
      | Returned _ m' => Some (BeforeLookup, m')
      | Panicked p m' => Some (HasPanicked p, m')
      | Blocked _ => None
      end
  | BeforeLookup =>
      match map_has id m with
      | Returned has m' => Some (BeforeBranch has, m')
      | Panicked p m' => Some (HasPanicked p, m')
      | Blocked _ => None
      end
  | BeforeBranch true => Some (BeforeUnlock (Some ErrRequestIDExist), m)
  | BeforeBranch false =>
      match map_assign id m with
      | Returned _ m' => Some (BeforeUnlock nil_error, m')
      | Panicked p m' => Some (HasPanicked p, m')
      | Blocked _ => None
      end
  | BeforeUnlock err =>
      match mutex_Unlock m with
      | Returned _ m' => Some (HasReturned err, m')
      | Panicked p m' => Some (HasPanicked p, m')
      | Blocked _ => None
      end
  | HasReturned _ | HasPanicked _ => None
  end.

(** A goroutine that runs alone takes its steps one after the other. *)
Fixpoint Save_alone (fuel : nat) (id : string) (pt : SavePoint) (m : MemIDStore)
  : SavePoint * MemIDStore :=
  match fuel with
  | 0 => (pt, m)
  | S fuel' =>
      match Save_step id pt m with
      | Some (pt', m') => Save_alone fuel' id pt' m'
      | None => (pt, m)
      end
  end.

Record Goroutine : Type := {
  g_id : string;                  (* the argument of its call Save(id) *)
  g_at : SavePoint;
}.

#[global] Instance Goroutine_eq_dec : EqDecision Goroutine.
Proof. solve_decision. Defined.

(** Goroutines sharing one store. *)
Record Pool : Type := {
  pool_store : MemIDStore;
  pool_goroutines : list Goroutine;
}.

(** The scheduler lets goroutine [i] take its next step; nothing happens
    when it cannot move. *)
Definition pool_step (i : nat) (p : Pool) : Pool :=
  match pool_goroutines p !! i with
  | Some g =>
      match Save_step (g_id g) (g_at g) (pool_store p) with
      | Some (pt', m') =>
          {| pool_store := m';
             pool_goroutines := <[i := {| g_id := g_id g; g_at := pt' |}]> (pool_goroutines p) |}
      | None => p
      end
  | None => p
  end.

Definition run_schedule (schedule : list nat) (p : Pool) : Pool :=
  foldl (λ p i, pool_step i p) p schedule.

(** One goroutine per key of [ids], each about to enter [Save]. *)
Definition spawn (ids : list string) (m : MemIDStore) : Pool := {|
  pool_store := m;
  pool_goroutines := (λ id, {| g_id := id; g_at := BeforeLock |}) <$> ids;
|}.

(** How many goroutines called [Save(k)] and got [e]. *)
Definition returned_with (k : string) (e : error) (p : Pool) : nat :=
  length (filter (λ g, g = {| g_id := k; g_at := HasReturned e |}) (pool_goroutines p)).

(** Every goroutine has returned from [Save]. *)
Definition all_returned (p : Pool) : Prop :=
  Forall (λ g, ∃ e, g_at g = HasReturned e) (pool_goroutines p).

(** * Properties *)

(** ** The monad *)

(** A call that is not in an explicit list of calls. *)
Ltac not_called :=
  simpl;
  repeat match goal with
         | |- _ ∧ _ => split
         | |- ∀ _ : string, _ => intro
         end;
  rewrite ?elem_of_cons, ?elem_of_nil; intuition discriminate.

Ltac go_unfold :=
  cbv [mbind mret Go_bind Go_ret get modify panic zoom] in *.

Lemma bind_Returned {S A B} (c : Go S A) (k : A → Go S B) s a s' :
  c s = Returned a s' → (c ≫= k) s = k a s'.
Proof. intros Hc. go_unfold. by rewrite Hc. Qed.

Lemma bind_Panicked {S A B} (c : Go S A) (k : A → Go S B) s p s' :
  c s = Panicked p s' → (c ≫= k) s = Panicked p s'.
Proof. intros Hc. go_unfold. by rewrite Hc. Qed.

Lemma bind_Blocked {S A B} (c : Go S A) (k : A → Go S B) s s' :
  c s = Blocked s' → (c ≫= k) s = Blocked s'.
Proof. intros Hc. go_unfold. by rewrite Hc. Qed.

(** ** MemIDStore *)

Lemma MemIDStore_eta (m : MemIDStore) :
  m = {| requests := requests m; lock := lock m |}.
Proof. by destruct m. Qed.

Lemma member_Some id r l :
  member id {| requests := Some r; lock := l |} ↔ is_Some (r !! id).
Proof.
  split.
  - by intros (r' & [= <-] & ?).
  - intros ?. by exists r.
Qed.

Lemma member_None id l : ¬ member id {| requests := None; lock := l |}.
Proof. by intros (r & [=] & ?). Qed.

Lemma member_initialised id m : member id m → initialised m.
Proof. intros (r & Hr & _). unfold initialised. by rewrite Hr. Qed.

(** [Save] on a key that is not claimed claims it. *)
Lemma MemIDStore_Save_absent id r :
  r !! id = None →
  MemIDStore_Save id {| requests := Some r; lock := Free |}
  = Returned nil_error {| requests := Some (<[id := ()]> r); lock := Free |}.
Proof.
  intros Hid. unfold MemIDStore_Save, mutex_Lock, mutex_Unlock, map_has, map_assign.
  go_unfold. simpl. rewrite bool_decide_eq_false_2; [done|].
  rewrite Hid. by intros [? [=]].
Qed.

(** [Save] on a claimed key answers [ErrRequestIDExist] and changes
    nothing. *)
Lemma MemIDStore_Save_present id r :
  is_Some (r !! id) →
  MemIDStore_Save id {| requests := Some r; lock := Free |}
  = Returned (Some ErrRequestIDExist) {| requests := Some r; lock := Free |}.
Proof.
  intros Hid. unfold MemIDStore_Save, mutex_Lock, mutex_Unlock, map_has, map_assign.
  go_unfold. simpl. by rewrite bool_decide_eq_true_2.
Qed.

(** On a store that was never initialised, or was destroyed, [Save]
    panics, and the mutex stays locked: there is no deferred unlock. *)
Lemma MemIDStore_Save_nil_map id :
  MemIDStore_Save id {| requests := None; lock := Free |}
  = Panicked NilMapAssignment {| requests := None; lock := Held |}.
Proof. reflexivity. Qed.

Lemma MemIDStore_Save_held id r :
  MemIDStore_Save id {| requests := r; lock := Held |}
  = Blocked {| requests := r; lock := Held |}.
Proof. reflexivity. Qed.

Lemma MemIDStore_Remove_free id r :
  MemIDStore_Remove id {| requests := r; lock := Free |}
  = Returned nil_error {| requests := delete id <$> r; lock := Free |}.
Proof. reflexivity. Qed.

Lemma MemIDStore_Remove_held id r :
  MemIDStore_Remove id {| requests := r; lock := Held |}
  = Blocked {| requests := r; lock := Held |}.
Proof. reflexivity. Qed.

(** A [Save] that returns found the mutex free and the map allocated. *)
Lemma MemIDStore_Save_Returned id m e m' :
  MemIDStore_Save id m = Returned e m' →
  ∃ r, m = {| requests := Some r; lock := Free |} ∧
       ((r !! id = None ∧ e = None ∧
         m' = {| requests := Some (<[id := ()]> r); lock := Free |}) ∨
        (is_Some (r !! id) ∧ e = Some ErrRequestIDExist ∧ m' = m)).
Proof.
  destruct m as [[r|] [|]]; intros Hs.
  - exists r. split; [done|]. destruct (r !! id) as [[]|] eqn:Hid.
    + right. rewrite MemIDStore_Save_present in Hs by (by rewrite Hid).
      by inversion Hs.
    + left. rewrite MemIDStore_Save_absent in Hs by done. by inversion Hs.
  - by rewrite MemIDStore_Save_held in Hs.
  - by rewrite MemIDStore_Save_nil_map in Hs.
  - by rewrite MemIDStore_Save_held in Hs.
Qed.

(** Both methods give the mutex back when they return. *)
Lemma MemIDStore_Save_idle id m e m' :
  MemIDStore_Save id m = Returned e m' → idle m ∧ idle m'.
Proof.
  intros (r & -> & [(_ & _ & ->)|(_ & _ & ->)])%MemIDStore_Save_Returned; done.
Qed.

Lemma MemIDStore_Remove_idle id m e m' :
  MemIDStore_Remove id m = Returned e m' → idle m ∧ idle m'.
Proof.
  destruct m as [r [|]].
  - rewrite MemIDStore_Remove_free. by intros [= _ <-].
  - by rewrite MemIDStore_Remove_held.
Qed.

(** *** Sequences of calls *)

(** How many of [ops] are [Save(k)]. *)
Definition count_Save (k : string) (ops : list Op) : nat :=
  length (filter (λ o, o = OpSave k) ops).

(** One success, then [n - 1] times "already exists". *)
Definition once_then_exist (n : nat) : list error :=
  match n with
  | 0 => []
  | S n' => nil_error :: replicate n' (Some ErrRequestIDExist)
  end.

Lemma count_Save_cons_eq k ops : count_Save k (OpSave k :: ops) = S (count_Save k ops).
Proof. unfold count_Save. by rewrite filter_cons_True. Qed.

Lemma count_Save_cons_ne k o ops :
  o ≠ OpSave k → count_Save k (o :: ops) = count_Save k ops.
Proof. intros. unfold count_Save. by rewrite filter_cons_False. Qed.

Lemma run_ops_cons o ops m e m' :
  run_op o m = Returned e m' →
  run_ops (o :: ops) m = (es ← run_ops ops; mret (e :: es)) m'.
Proof. intros Ho. simpl. by rewrite (bind_Returned _ _ _ _ _ Ho). Qed.

(** As long as nobody releases [k], the calls [Save(k)] in a sequence
    answer "already exists", except the first one when [k] was free at the
    start.  The sequence always runs to its end. *)
Lemma run_ops_results k ops :
  OpRemove k ∉ ops →
  ∀ r, ∃ es r',
    run_ops ops {| requests := Some r; lock := Free |}
    = Returned es {| requests := Some r'; lock := Free |} ∧
    length es = length ops ∧
    results_of_Save k ops es
    = if decide (is_Some (r !! k))
      then replicate (count_Save k ops) (Some ErrRequestIDExist)
      else once_then_exist (count_Save k ops).
Proof.
  induction ops as [|o ops IH]; intros Hk r.
  - exists [], r. repeat split. by case_decide.
  - apply not_elem_of_cons in Hk as [Ho Hk]. specialize (IH Hk).
    destruct o as [id|id].
    + destruct (r !! id) as [[]|] eqn:Hid.
      * (* [id] is claimed: nothing changes *)
        destruct (IH r) as (es & r' & Hrun & Hlen & Hres).
        exists (Some ErrRequestIDExist :: es), r'.
        rewrite (run_ops_cons _ _ _ (Some ErrRequestIDExist)
                   {| requests := Some r; lock := Free |})
          by (apply MemIDStore_Save_present; by rewrite Hid).
        rewrite (bind_Returned _ _ _ _ _ Hrun). split; [done|].
        split; [simpl; by rewrite Hlen|]. simpl. case_bool_decide as Heq.
        -- subst id. rewrite count_Save_cons_eq, Hres.
           rewrite !decide_True by (by rewrite Hid). done.
        -- rewrite count_Save_cons_ne by congruence. done.
      * (* [id] is free: it becomes claimed *)
        destruct (IH (<[id := ()]> r)) as (es & r' & Hrun & Hlen & Hres).
        exists (nil_error :: es), r'.
        rewrite (run_ops_cons _ _ _ nil_error
                   {| requests := Some (<[id := ()]> r); lock := Free |})
          by (by apply MemIDStore_Save_absent).
        rewrite (bind_Returned _ _ _ _ _ Hrun). split; [done|].
        split; [simpl; by rewrite Hlen|]. simpl. case_bool_decide as Heq.
        -- subst id. rewrite count_Save_cons_eq, Hres.
           rewrite decide_True by (rewrite lookup_insert_eq; eauto).
           rewrite decide_False by (rewrite Hid; by intros [? [=]]). done.
        -- rewrite count_Save_cons_ne by congruence.
           rewrite lookup_insert_ne in Hres by done. done.
    + assert (id ≠ k) as Hne by congruence.
      destruct (IH (delete id r)) as (es & r' & Hrun & Hlen & Hres).
      exists (nil_error :: es), r'.
      rewrite (run_ops_cons _ _ _ nil_error
                 {| requests := Some (delete id r); lock := Free |})
        by apply MemIDStore_Remove_free.
      rewrite (bind_Returned _ _ _ _ _ Hrun). split; [done|].
      split; [simpl; by rewrite Hlen|]. simpl.
      rewrite count_Save_cons_ne by congruence.
      rewrite lookup_delete_ne in Hres by done. done.
Qed.

(** C1: on an initialised store whose mutex is free, [Save(k)] returns nil
    and makes [k] a member (leaving every other key as it was) when [k] is
    not a member, and returns [ErrRequestIDExist] and changes nothing when
    it is; so in any sequence of calls that does not contain [Remove(k)],
    run from a state where [k] is free, the first [Save(k)] returns nil and
    every later one [ErrRequestIDExist]. *)
Theorem MemIDStore_Save_exclusive (k : string) (m : MemIDStore) :
  initialised m → idle m →
  (¬ member k m →
     ∃ m', MemIDStore_Save k m = Returned nil_error m' ∧
           member k m' ∧ idle m' ∧
           (∀ j, j ≠ k → member j m' ↔ member j m)) ∧
  (member k m → MemIDStore_Save k m = Returned (Some ErrRequestIDExist) m) ∧
  (∀ ops, OpRemove k ∉ ops → ¬ member k m →
     ∃ es m', run_ops ops m = Returned es m' ∧
              length es = length ops ∧
              results_of_Save k ops es = once_then_exist (count_Save k ops)).
Proof.
  destruct m as [[r|] l]; intros Hinit Hidle; [|by destruct Hinit].
  unfold idle in Hidle; simpl in Hidle; subst l.
  split; [|split].
  - intros Hk. rewrite member_Some in Hk.
    assert (r !! k = None) as Hnone.
    { destruct (r !! k) eqn:E; [|done]. destruct Hk. eauto. }
    eexists. split; [by apply MemIDStore_Save_absent|].
    split; [apply member_Some; rewrite lookup_insert_eq; eauto|].
    split; [done|]. intros j Hj. rewrite !member_Some.
    by rewrite lookup_insert_ne.
  - intros Hk%member_Some. by apply MemIDStore_Save_present.
  - intros ops Hops Hk. rewrite member_Some in Hk.
    destruct (run_ops_results k ops Hops r) as (es & r' & Hrun & Hlen & Hres).
    rewrite decide_False in Hres by done. eauto.
Qed.

(** C3: whenever [Save(k)] returns nil, a following [Remove(k)] returns nil
    and puts the store back into the state it had before the [Save], and
    [Save(k)] returns nil there again. *)
Theorem MemIDStore_release_enables_reuse (k : string) (m m1 : MemIDStore) :
  MemIDStore_Save k m = Returned nil_error m1 →
  ∃ m2 m3, MemIDStore_Remove k m1 = Returned nil_error m2 ∧
           m2 = m ∧ ¬ member k m2 ∧
           MemIDStore_Save k m2 = Returned nil_error m3 ∧ member k m3.
Proof.
  intros (r & -> & [(Hk & _ & ->)|(_ & [=] & _)])%MemIDStore_Save_Returned.
  exists {| requests := Some r; lock := Free |},
         {| requests := Some (<[k := ()]> r); lock := Free |}.
  split; [|split; [done|split; [|split]]].
  - rewrite MemIDStore_Remove_free. simpl. by rewrite delete_insert_id.
  - rewrite member_Some, Hk. by intros [? [=]].
  - by apply MemIDStore_Save_absent.
  - rewrite member_Some, lookup_insert_eq. eauto.
Qed.

(** C9: with the mutex free, [Remove(k)] on a key that is not a member
    returns nil and leaves the store as it was, also on a store whose map
    is nil; and whatever the store holds, [Remove(k)] twice in a row
    returns nil both times, the second call changing nothing. *)
Theorem MemIDStore_Remove_absent (k : string) (m : MemIDStore) :
  idle m →
  (¬ member k m → MemIDStore_Remove k m = Returned nil_error m) ∧
  (∃ m1, MemIDStore_Remove k m = Returned nil_error m1 ∧
         ¬ member k m1 ∧
         MemIDStore_Remove k m1 = Returned nil_error m1).
Proof.
  destruct m as [r l]. unfold idle; simpl; intros ->. split.
  - intros Hk. rewrite MemIDStore_Remove_free. destruct r as [r|]; [|done].
    simpl. rewrite delete_id; [done|].
    rewrite member_Some in Hk. destruct (r !! k) eqn:E; [|done].
    destruct Hk; eauto.
  - exists {| requests := delete k <$> r; lock := Free |}.
    split; [apply MemIDStore_Remove_free|]. destruct r as [r|]; simpl.
    + split.
      * rewrite member_Some, lookup_delete_eq. by intros [? [=]].
      * rewrite MemIDStore_Remove_free. simpl. by rewrite delete_delete_eq.
    + split; [apply member_None|done].
Qed.

(** ** RequestId.Filter *)

Section Filter.
Context {X : Type} `{!IDStore X}.
Implicit Types (w : @World X) (v : @IDStoreValue X) (req : Request)
               (chain : @FilterChain X).

Lemma made_app {A} w (o : Outcome World A) cs :
  calls (final o) = calls w ++ cs → made w o = cs.
Proof. intros Hc. unfold made. by rewrite Hc, drop_app_length. Qed.

Lemma through_Store_nil {A} c (method : Go IDStoreValue A) w :
  Store (self w) = None → through_Store c method w = Panicked NilDereference w.
Proof.
  intros Hs. unfold through_Store, on_self. go_unfold. rewrite Hs. by destruct w.
Qed.

Lemma through_Store_Returned {A} c (method : Go IDStoreValue A) w v a v' :
  Store (self w) = Some v → method v = Returned a v' →
  through_Store c method w
  = Returned a {| self := set_Store (Some v') (self w); calls := calls w ++ [c] |}.
Proof.
  intros Hs Hm. unfold through_Store, on_self, on_Store, record. go_unfold.
  rewrite Hs. simpl. by rewrite Hm.
Qed.

Lemma through_Store_Panicked {A} c (method : Go IDStoreValue A) w v p v' :
  Store (self w) = Some v → method v = Panicked p v' →
  through_Store c method w
  = Panicked p {| self := set_Store (Some v') (self w); calls := calls w ++ [c] |}.
Proof.
  intros Hs Hm. unfold through_Store, on_self, on_Store, record. go_unfold.
  rewrite Hs. simpl. by rewrite Hm.
Qed.

Lemma through_Store_Blocked {A} c (method : Go IDStoreValue A) w v v' :
  Store (self w) = Some v → method v = Blocked v' →
  through_Store c method w
  = Blocked {| self := set_Store (Some v') (self w); calls := calls w ++ [c] |}.
Proof.
  intros Hs Hm. unfold through_Store, on_self, on_Store, record. go_unfold.
  rewrite Hs. simpl. by rewrite Hm.
Qed.

(** Up to the call of [Save]: what a request that is not a GET and
    carries a token goes through. *)
Lemma RequestId_Filter_claim req chain w :
  Method req ≠ "GET" →
  Header req (HeaderName (self w)) ≠ "" →
  RequestId_Filter req chain w
  = (err ← through_Store
             (StoreSave (scope_id (RemoteIP req) (Header req (HeaderName (self w)))))
             (IDStoreValue_Save
                (scope_id (RemoteIP req) (Header req (HeaderName (self w)))));
     if bool_decide (err = Some ErrRequestIDExist) then
       resp_ReportForbidden ;;
       resp_Send "error" (ErrorOverlap (self w))
     else if bool_decide (err ≠ None) then
       logger_Panicln err
     else
       call_chain chain req ;;
       through_Store
         (StoreRemove (scope_id (RemoteIP req) (Header req (HeaderName (self w)))))
         (IDStoreValue_Remove
            (scope_id (RemoteIP req) (Header req (HeaderName (self w))))) ;;
       mret ())
      {| self := self w;
         calls := calls w ++ [ReqMethod; ReqHeader (HeaderName (self w)); ReqRemoteIP] |}.
Proof.
  intros Hm Hh. unfold RequestId_Filter, req_Method, req_Header, req_RemoteIP,
    on_self, record.
  go_unfold. simpl. rewrite !bool_decide_eq_false_2 by done.
  simpl. by rewrite <-!(assoc_L (++)).
Qed.

(** Calling the chain adds one call to the trace, whatever the chain
    then does, and hands the store over to it. *)
Lemma call_chain_final chain req w :
  calls (final (call_chain chain req w)) = calls w ++ [ChainCall] ∧
  self (final (call_chain chain req w))
  = set_Store (final (chain req (Store (self w)))) (self w).
Proof.
  unfold call_chain, on_Store, on_self, record. go_unfold. simpl.
  by destruct (chain req (Store (self w))).
Qed.

Lemma call_chain_Returned chain req w s :
  chain req (Store (self w)) = Returned () s →
  call_chain chain req w
  = Returned () {| self := set_Store s (self w); calls := calls w ++ [ChainCall] |}.
Proof.
  intros Hc. unfold call_chain, on_Store, on_self, record. go_unfold. simpl.
  by rewrite Hc.
Qed.

Lemma call_chain_Panicked chain req w p s :
  chain req (Store (self w)) = Panicked p s →
  call_chain chain req w
  = Panicked p {| self := set_Store s (self w); calls := calls w ++ [ChainCall] |}.
Proof.
  intros Hc. unfold call_chain, on_Store, on_self, record. go_unfold. simpl.
  by rewrite Hc.
Qed.

(** C2: when the request is not a GET, carries a token, and [Save] on its
    key answers [ErrRequestIDExist], the filter returns after exactly
    these calls: the three reads of the request, [Save],
    [resp.ReportForbidden()] and [resp.Send("error", ri.ErrorOverlap)].
    The chain is not among them. *)
Theorem RequestId_Filter_overlap req chain w v v' :
  Method req ≠ "GET" →
  Header req (HeaderName (self w)) ≠ "" →
  Store (self w) = Some v →
  IDStoreValue_Save (scope_id (RemoteIP req) (Header req (HeaderName (self w)))) v
  = Returned (Some ErrRequestIDExist) v' →
  RequestId_Filter req chain w
  = Returned ()
      {| self := set_Store (Some v') (self w);
         calls := calls w ++
           [ReqMethod; ReqHeader (HeaderName (self w)); ReqRemoteIP;
            StoreSave (scope_id (RemoteIP req) (Header req (HeaderName (self w))));
            RespReportForbidden; RespSend "error" (ErrorOverlap (self w))] |} ∧
  ChainCall ∉ made w (RequestId_Filter req chain w).
Proof.
  intros Hm Hh Hs Hsave.
  assert (RequestId_Filter req chain w
          = Returned ()
              {| self := set_Store (Some v') (self w);
                 calls := calls w ++
                   [ReqMethod; ReqHeader (HeaderName (self w)); ReqRemoteIP;
                    StoreSave (scope_id (RemoteIP req)
                                 (Header req (HeaderName (self w))));
                    RespReportForbidden;
                    RespSend "error" (ErrorOverlap (self w))] |}) as Hrun.
  { rewrite RequestId_Filter_claim by done.
    erewrite bind_Returned; [|by eapply through_Store_Returned].
    unfold resp_ReportForbidden, resp_Send, record. go_unfold. simpl.
    by rewrite <-!(assoc_L (++)). }
  split; [done|]. rewrite Hrun.
  erewrite made_app; [|done]. not_called.
Qed.

(** C4: when [Save] returns an error other than [ErrRequestIDExist], the
    filter does not return: it panics, having called neither the chain
    nor the response; and with a logger in place the panic is that of
    [ri.logger.Panicln(err)], called with the error [Save] returned. *)
Theorem RequestId_Filter_backend_error req chain w v v' e :
  Method req ≠ "GET" →
  Header req (HeaderName (self w)) ≠ "" →
  Store (self w) = Some v →
  IDStoreValue_Save (scope_id (RemoteIP req) (Header req (HeaderName (self w)))) v
  = Returned (Some e) v' →
  e ≠ ErrRequestIDExist →
  (∃ p w', RequestId_Filter req chain w = Panicked p w' ∧
           (ChainCall ∉ made w (RequestId_Filter req chain w)) ∧
           (RespReportForbidden ∉ made w (RequestId_Filter req chain w)) ∧
           (∀ key value, RespSend key value ∉ made w (RequestId_Filter req chain w))) ∧
  (∀ lg, logger (self w) = Some lg →
     RequestId_Filter req chain w
     = Panicked (LoggerPanic (Some e))
         {| self := set_Store (Some v') (self w);
            calls := calls w ++
              [ReqMethod; ReqHeader (HeaderName (self w)); ReqRemoteIP;
               StoreSave (scope_id (RemoteIP req) (Header req (HeaderName (self w))));
               LoggerPanicln lg (Some e)] |}).
Proof.
  intros Hm Hh Hs Hsave He.
  rewrite RequestId_Filter_claim by done.
  erewrite bind_Returned; [|by eapply through_Store_Returned].
  rewrite bool_decide_eq_false_2 by congruence.
  rewrite bool_decide_eq_true_2 by done.
  unfold logger_Panicln, on_self, record. go_unfold. simpl.
  destruct (logger (self w)) as [lg|] eqn:Hlg; simpl.
  - split.
    + do 2 eexists. split; [done|].
      erewrite made_app; [|simpl; rewrite <-!(assoc_L (++)); done].
      not_called.
    + intros ? [= <-]. by rewrite <-!(assoc_L (++)).
  - split; [|done].
    do 2 eexists. split; [done|].
    erewrite made_app; [|simpl; rewrite <-!(assoc_L (++)); done].
    not_called.
Qed.
(** C5, as the code has it: when [Save] returns nil the filter calls the
    chain and, once the chain has returned, [Remove] on the same key; it
    then returns, whatever [Remove] returned.  The error of [Remove] is
    dropped: the calls made are the same for every [e], and none of them
    is on the logger. *)
Theorem RequestId_Filter_release req chain w v v1 v2 v3 e :
  Method req ≠ "GET" →
  Header req (HeaderName (self w)) ≠ "" →
  Store (self w) = Some v →
  IDStoreValue_Save (scope_id (RemoteIP req) (Header req (HeaderName (self w)))) v
  = Returned nil_error v1 →
  chain req (Some v1) = Returned () (Some v2) →
  IDStoreValue_Remove (scope_id (RemoteIP req) (Header req (HeaderName (self w)))) v2
  = Returned e v3 →
  RequestId_Filter req chain w
  = Returned ()
      {| self := set_Store (Some v3) (self w);
         calls := calls w ++
           [ReqMethod; ReqHeader (HeaderName (self w)); ReqRemoteIP;
            StoreSave (scope_id (RemoteIP req) (Header req (HeaderName (self w))));
            ChainCall;
            StoreRemove (scope_id (RemoteIP req) (Header req (HeaderName (self w))))] |} ∧
  ¬ logged (made w (RequestId_Filter req chain w)).
Proof.
  intros Hm Hh Hs Hsave Hchain Hremove.
  assert (RequestId_Filter req chain w
          = Returned ()
              {| self := set_Store (Some v3) (self w);
                 calls := calls w ++
                   [ReqMethod; ReqHeader (HeaderName (self w)); ReqRemoteIP;
                    StoreSave (scope_id (RemoteIP req)
                                 (Header req (HeaderName (self w))));
                    ChainCall;
                    StoreRemove (scope_id (RemoteIP req)
                                   (Header req (HeaderName (self w))))] |}) as Hrun.
  { rewrite RequestId_Filter_claim by done.
    erewrite bind_Returned; [|by eapply through_Store_Returned].
    simpl. erewrite bind_Returned; [|by eapply call_chain_Returned].
    erewrite bind_Returned; [|by eapply through_Store_Returned].
    simpl. go_unfold. unfold set_Store. simpl.
    by rewrite <-!(assoc_L (++)). }
  split; [done|]. rewrite Hrun. erewrite made_app; [|done].
  intros (lg & e' & Hin). revert Hin. not_called.
Qed.

(** A chain that panics takes the filter with it: [Remove] is not
    deferred, so the key stays claimed. *)
Lemma RequestId_Filter_chain_panics req chain w v v1 p s :
  Method req ≠ "GET" →
  Header req (HeaderName (self w)) ≠ "" →
  Store (self w) = Some v →
  IDStoreValue_Save (scope_id (RemoteIP req) (Header req (HeaderName (self w)))) v
  = Returned nil_error v1 →
  chain req (Some v1) = Panicked p s →
  RequestId_Filter req chain w
  = Panicked p
      {| self := set_Store s (self w);
         calls := calls w ++
           [ReqMethod; ReqHeader (HeaderName (self w)); ReqRemoteIP;
            StoreSave (scope_id (RemoteIP req) (Header req (HeaderName (self w))));
            ChainCall] |}.
Proof.
  intros Hm Hh Hs Hsave Hchain.
  rewrite RequestId_Filter_claim by done.
  erewrite bind_Returned; [|by eapply through_Store_Returned].
  simpl. erewrite bind_Panicked; [|by eapply call_chain_Panicked].
  unfold set_Store. simpl. by rewrite <-!(assoc_L (++)).
Qed.

(** C6: on a GET the filter reads the method and calls the chain, and
    that is all it does, whatever the request carries and whatever the
    state of the filter: the outcome is the chain's, no header is read,
    and the store is reached by the chain only. *)
Theorem RequestId_Filter_GET req chain w :
  Method req = "GET" →
  RequestId_Filter req chain w
  = call_chain chain req {| self := self w; calls := calls w ++ [ReqMethod] |} ∧
  made w (RequestId_Filter req chain w) = [ReqMethod; ChainCall] ∧
  self (final (RequestId_Filter req chain w))
  = set_Store (final (chain req (Store (self w)))) (self w) ∧
  (∀ name, ReqHeader name ∉ made w (RequestId_Filter req chain w)) ∧
  (∀ id, StoreSave id ∉ made w (RequestId_Filter req chain w)) ∧
  (∀ id, StoreRemove id ∉ made w (RequestId_Filter req chain w)).
Proof.
  intros Hm.
  assert (RequestId_Filter req chain w
          = call_chain chain req
              {| self := self w; calls := calls w ++ [ReqMethod] |}) as Hrun.
  { unfold RequestId_Filter, req_Method, record. go_unfold.
    by rewrite bool_decide_eq_true_2. }
  split; [done|]. rewrite Hrun.
  destruct (call_chain_final chain req
              {| self := self w; calls := calls w ++ [ReqMethod] |}) as [Hc Hself].
  simpl in Hc, Hself. rewrite <-(assoc_L (++)) in Hc. simpl in Hc.
  rewrite (made_app _ _ _ Hc). split; [done|]. split; [done|]. not_called.
Qed.

(** C7: when the request is not a GET and carries no token, the filter
    calls the chain if [PassingOnNoId] is set; if not, it calls
    [resp.ReportBadRequest()] and [resp.Send("error", ri.Error)] and
    returns.  Either way it makes no call on the store. *)
Theorem RequestId_Filter_no_token req chain w :
  Method req ≠ "GET" →
  Header req (HeaderName (self w)) = "" →
  (PassingOnNoId (self w) = true →
     RequestId_Filter req chain w
     = call_chain chain req
         {| self := self w;
            calls := calls w ++ [ReqMethod; ReqHeader (HeaderName (self w))] |} ∧
     made w (RequestId_Filter req chain w)
     = [ReqMethod; ReqHeader (HeaderName (self w)); ChainCall]) ∧
  (PassingOnNoId (self w) = false →
     RequestId_Filter req chain w
     = Returned ()
         {| self := self w;
            calls := calls w ++
              [ReqMethod; ReqHeader (HeaderName (self w));
               RespReportBadRequest; RespSend "error" (Error (self w))] |} ∧
     (ChainCall ∉ made w (RequestId_Filter req chain w))) ∧
  (∀ id, StoreSave id ∉ made w (RequestId_Filter req chain w)) ∧
  (∀ id, StoreRemove id ∉ made w (RequestId_Filter req chain w)).
Proof.
  intros Hm Hh.
  assert (RequestId_Filter req chain w
          = (if PassingOnNoId (self w) then call_chain chain req
             else resp_ReportBadRequest ;; resp_Send "error" (Error (self w)))
              {| self := self w;
                 calls := calls w ++ [ReqMethod; ReqHeader (HeaderName (self w))] |})
    as Hrun.
  { unfold RequestId_Filter, req_Method, req_Header, on_self, record. go_unfold.
    simpl. rewrite bool_decide_eq_false_2 by done. simpl.
    rewrite bool_decide_eq_true_2 by done. by rewrite <-!(assoc_L (++)). }
  rewrite Hrun. destruct (PassingOnNoId (self w)).
  - destruct (call_chain_final chain req
                {| self := self w;
                   calls := calls w ++ [ReqMethod; ReqHeader (HeaderName (self w))] |})
      as [Hc _].
    simpl in Hc. rewrite <-(assoc_L (++)) in Hc. simpl in Hc.
    rewrite (made_app _ _ _ Hc). split; [done|]. split; [done|]. not_called.
  - unfold resp_ReportBadRequest, resp_Send, record. go_unfold. simpl.
    rewrite <-!(assoc_L (++)). simpl.
    erewrite made_app; [|done]. split; [done|]. split; [|not_called].
    intros _. split; [done|not_called].
Qed.
End Filter.

(** ** The key of a request *)

Lemma String_length_app (s t : string) :
  String.length (s +:+ t) = String.length s + String.length t.
Proof. induction s as [|a s IH]; simpl; [done|]. by rewrite IH. Qed.

(** A common suffix can be cancelled. *)
Lemma String_app_inv_tail (s1 s2 t : string) : s1 +:+ t = s2 +:+ t → s1 = s2.
Proof.
  revert s2. induction s1 as [|a s1 IH]; intros [|b s2] Heq; simpl in Heq.
  - done.
  - apply (f_equal String.length) in Heq.
    rewrite !String_length_app in Heq. simpl in Heq. lia.
  - apply (f_equal String.length) in Heq.
    rewrite !String_length_app in Heq. simpl in Heq. lia.
  - injection Heq as -> Heq. f_equal. by apply IH.
Qed.

Lemma scope_id_ip_inj (ip1 ip2 reqId : string) :
  scope_id ip1 reqId = scope_id ip2 reqId → ip1 = ip2.
Proof. unfold scope_id. apply String_app_inv_tail. Qed.

(** With different tokens two clients can meet on one key, since ":" is
    not kept out of addresses or tokens. *)
Remark scope_id_shared_by_two_clients :
  scope_id "::1" "2:abc" = scope_id "::1:2" "abc".
Proof. reflexivity. Qed.

Section Scoping.
Context {X : Type} `{!IDStore X}.

(** What is in the trace after a call through [ri.Store]. *)
Lemma through_Store_calls {A} c (method : Go IDStoreValue A) (w : @World X) :
  calls (final (through_Store c method w))
  = calls w ++ match Store (self w) with Some _ => [c] | None => [] end.
Proof.
  destruct (Store (self w)) as [v|] eqn:Hs.
  - destruct (method v) as [a v'|p v'|v'] eqn:Hm.
    + by erewrite through_Store_Returned.
    + by erewrite through_Store_Panicked.
    + by erewrite through_Store_Blocked.
  - rewrite through_Store_nil by done. simpl. by rewrite app_nil_r.
Qed.

(** Once [Save] has returned nil the chain is called, whatever comes
    after. *)
Lemma release_calls chain req id (w : @World X) :
  ∃ cs, calls (final ((call_chain chain req ;;
                       through_Store (StoreRemove id) (IDStoreValue_Remove id) ;;
                       mret ()) w))
        = calls w ++ ChainCall :: cs.
Proof.
  destruct (call_chain_final chain req w) as [Hc _].
  destruct (call_chain chain req w) as [[] w2|p w2|w2] eqn:Hchain; simpl in Hc.
  - erewrite bind_Returned; [|done].
    pose proof (through_Store_calls (StoreRemove id) (IDStoreValue_Remove id) w2) as Hr.
    destruct (through_Store (StoreRemove id) (IDStoreValue_Remove id) w2)
      as [a w3|p w3|w3] eqn:Hrem; simpl in Hr;
      [erewrite bind_Returned by done|erewrite bind_Panicked by done
      |erewrite bind_Blocked by done]; simpl;
      rewrite Hr, Hc, <-(assoc_L (++)); eauto.
  - erewrite bind_Panicked; [|done]. simpl. rewrite Hc. eauto.
  - erewrite bind_Blocked; [|done]. simpl. rewrite Hc. eauto.
Qed.

(** C8: two requests with the same token and different remote addresses
    have different keys.  On a [MemIDStore], what [Save] answers for the
    one key is the same before and after a [Save] of the other, and when
    both keys are free both calls return nil; so while the first
    request is being served the filter lets the second through to the
    chain. *)
Theorem scope_id_separates_clients (req1 req2 : Request) (hn : string) :
  RemoteIP req1 ≠ RemoteIP req2 →
  Header req1 hn = Header req2 hn →
  scope_id (RemoteIP req1) (Header req1 hn) ≠ scope_id (RemoteIP req2) (Header req2 hn) ∧
  (∀ m e1 m1,
     MemIDStore_Save (scope_id (RemoteIP req1) (Header req1 hn)) m = Returned e1 m1 →
     ∃ e2 m2 m2',
       MemIDStore_Save (scope_id (RemoteIP req2) (Header req2 hn)) m1 = Returned e2 m2 ∧
       MemIDStore_Save (scope_id (RemoteIP req2) (Header req2 hn)) m = Returned e2 m2') ∧
  (∀ m, initialised m → idle m →
     ¬ member (scope_id (RemoteIP req1) (Header req1 hn)) m →
     ¬ member (scope_id (RemoteIP req2) (Header req2 hn)) m →
     ∃ m1 m2,
       MemIDStore_Save (scope_id (RemoteIP req1) (Header req1 hn)) m
       = Returned nil_error m1 ∧
       MemIDStore_Save (scope_id (RemoteIP req2) (Header req2 hn)) m1
       = Returned nil_error m2 ∧
       member (scope_id (RemoteIP req1) (Header req1 hn)) m2 ∧
       member (scope_id (RemoteIP req2) (Header req2 hn)) m2 ∧
       (∀ (w : @World X) chain,
          Store (self w) = Some (OfMem m1) →
          HeaderName (self w) = hn →
          Method req2 ≠ "GET" →
          Header req2 hn ≠ "" →
          ChainCall ∈ made w (RequestId_Filter req2 chain w))).
Proof.
  intros Hip Htok.
  assert (scope_id (RemoteIP req1) (Header req1 hn)
          ≠ scope_id (RemoteIP req2) (Header req2 hn)) as Hne.
  { rewrite Htok. intros Heq. by apply Hip, (scope_id_ip_inj _ _ _ Heq). }
  set (k1 := scope_id (RemoteIP req1) (Header req1 hn)) in *.
  set (k2 := scope_id (RemoteIP req2) (Header req2 hn)) in *.
  split; [done|]. split.
  - intros m e1 m1 (r & -> & Hcase)%MemIDStore_Save_Returned.
    destruct (r !! k2) as [[]|] eqn:Hk2.
    + exists (Some ErrRequestIDExist).
      destruct Hcase as [(_ & _ & ->)|(_ & _ & ->)]; do 2 eexists; split;
        apply MemIDStore_Save_present;
        rewrite ?lookup_insert_ne by done; by rewrite Hk2.
    + exists nil_error.
      destruct Hcase as [(_ & _ & ->)|(_ & _ & ->)]; do 2 eexists; split;
        apply MemIDStore_Save_absent;
        rewrite ?lookup_insert_ne by done; done.
  - intros [[r|] l] Hinit Hidle Hk1 Hk2; [|by destruct Hinit].
    unfold idle in Hidle; simpl in Hidle; subst l.
    rewrite member_Some in Hk1, Hk2.
    assert (r !! k1 = None) as Hn1.
    { destruct (r !! k1) eqn:E; [|done]. destruct Hk1; eauto. }
    assert (r !! k2 = None) as Hn2.
    { destruct (r !! k2) eqn:E; [|done]. destruct Hk2; eauto. }
    assert (MemIDStore_Save k2 {| requests := Some (<[k1 := ()]> r); lock := Free |}
            = Returned nil_error
                {| requests := Some (<[k2 := ()]> (<[k1 := ()]> r)); lock := Free |})
      as Hsave2.
    { apply MemIDStore_Save_absent. by rewrite lookup_insert_ne. }
    do 2 eexists. split; [by apply MemIDStore_Save_absent|].
    split; [exact Hsave2|].
    split; [rewrite member_Some, lookup_insert_ne, lookup_insert_eq by done; eauto|].
    split; [rewrite member_Some, lookup_insert_eq; eauto|].
    intros w chain Hs Hhn Hm Hh. subst hn.
    rewrite RequestId_Filter_claim by done. fold k2.
    erewrite bind_Returned;
      [|eapply through_Store_Returned; [done|];
        unfold IDStoreValue_Save, dispatch; go_unfold; simpl;
        by rewrite Hsave2].
    simpl.
    match goal with
    | |- context [(_ ≫= _) ?w1] => destruct (release_calls chain req2 k2 w1) as [cs Hcs]
    end.
    erewrite made_app; [|rewrite Hcs; simpl; rewrite <-!(assoc_L (++)); done].
    rewrite !elem_of_app, !elem_of_cons. tauto.
Qed.
End Scoping.

(** ** Initialisation *)

Lemma RedisIDStore_Init_not_loaded COMP_REDIS env r :
  Component env COMP_REDIS = (None, None) →
  RedisIDStore_Init COMP_REDIS env r
  = Returned (Some (Err "component redis isn't loaded")) r.
Proof. intros Hc. unfold RedisIDStore_Init. by rewrite Hc. Qed.

Lemma RedisIDStore_Init_error COMP_REDIS env r c e :
  Component env COMP_REDIS = (c, Some e) →
  RedisIDStore_Init COMP_REDIS env r = Returned (Some e) r.
Proof. intros Hc. unfold RedisIDStore_Init. rewrite Hc. by destruct c. Qed.

Lemma RedisIDStore_Init_loaded COMP_REDIS env r c :
  Component env COMP_REDIS = (Some (RedisComponent c), None) →
  RedisIDStore_Init COMP_REDIS env r
  = Returned nil_error {| Key := defval_String (Key r) "RequestID"; redis := Some c |}.
Proof. intros Hc. unfold RedisIDStore_Init. by rewrite Hc. Qed.

Section Init.
Context {X : Type} `{!IDStore X}.

(** C10: [RequestId.Init] never returns anything but nil; and whenever
    the [Init] of the store returns, with whatever error [e], it returns
    nil, having filled in the defaults and taken the logger: [e] does not
    show in the result. *)
Theorem RequestId_Init_returns_nil (env : Enviroment) (w : @World X) :
  (∀ e w', RequestId_Init env w = Returned e w' → e = None) ∧
  (∀ e v',
     IDStoreValue_Init env (default (OfMem new_MemIDStore) (Store (self w)))
     = Returned e v' →
     RequestId_Init env w
     = Returned nil_error
         {| self :=
              {| Store := Some v';
                 HeaderName := defval_String (HeaderName (self w)) "X-Request-Id";
                 PassingOnNoId := PassingOnNoId (self w);
                 Error := defval_String (Error (self w))
                            "header value X-Request-Id can't be empty";
                 ErrorOverlap := defval_String (ErrorOverlap (self w))
                                   "request already accepted before, please wait";
                 logger := EnvLogger env |};
            calls := calls w ++ [StoreInit; EnvLoggerCall] |}).
Proof.
  unfold RequestId_Init, through_Store, on_Store, on_self, record, set_Store.
  go_unfold. simpl. split.
  - intros e w'.
    destruct (Store (self w)) as [v|]; simpl;
      [destruct (IDStoreValue_Init env v)|]; simpl; congruence.
  - intros e v' Hinit.
    destruct (Store (self w)) as [v|]; simpl in *;
      [rewrite Hinit|injection Hinit as <- <-]; simpl;
      by rewrite <-(assoc_L (++)).
Qed.
End Init.

(** ** The properties at work *)

Import Scenario.

(** Decide a closed decidable proposition by evaluation. *)
Ltac by_evaluation := apply (bool_decide_unpack _); vm_compute; exact I.

(** Three [Save("a")] among other calls: nil, then "already exists"
    twice. *)
Lemma MemIDStore_Save_exclusive_witness :
  initialised (mem_store []) ∧ idle (mem_store []) ∧
  ∃ es m',
    run_ops [OpSave "a"; OpSave "b"; OpSave "a"; OpRemove "b"; OpSave "a"] (mem_store [])
    = Returned es m' ∧
    results_of_Save "a" [OpSave "a"; OpSave "b"; OpSave "a"; OpRemove "b"; OpSave "a"] es
    = [nil_error; Some ErrRequestIDExist; Some ErrRequestIDExist].
Proof.
  assert (initialised (mem_store [])) as Hinit by by_evaluation.
  assert (idle (mem_store [])) as Hidle by reflexivity.
  split; [exact Hinit|]. split; [exact Hidle|].
  destruct (MemIDStore_Save_exclusive "a" (mem_store []) Hinit Hidle) as (_ & _ & Hseq).
  destruct (Hseq [OpSave "a"; OpSave "b"; OpSave "a"; OpRemove "b"; OpSave "a"])
    as (es & m' & Hrun & _ & Hres); [by_evaluation|by_evaluation|].
  exists es, m'. split; [exact Hrun|exact Hres].
Defined.

Lemma MemIDStore_release_enables_reuse_witness :
  MemIDStore_Save "1.2.3.4:abc" (mem_store ["5.6.7.8:abc"])
  = Returned nil_error (mem_store ["1.2.3.4:abc"; "5.6.7.8:abc"]) ∧
  ∃ m3, MemIDStore_Save "1.2.3.4:abc" (mem_store ["5.6.7.8:abc"])
        = Returned nil_error m3.
Proof.
  assert (MemIDStore_Save "1.2.3.4:abc" (mem_store ["5.6.7.8:abc"])
          = Returned nil_error (mem_store ["1.2.3.4:abc"; "5.6.7.8:abc"])) as Hsave
    by (vm_compute; reflexivity).
  split; [exact Hsave|].
  destruct (MemIDStore_release_enables_reuse _ _ _ Hsave)
    as (m2 & m3 & _ & Hback & _ & Hagain & _).
  exists m3. rewrite <-Hback. exact Hagain.
Defined.

Lemma MemIDStore_Remove_absent_witness :
  idle (mem_store ["5.6.7.8:abc"]) ∧
  MemIDStore_Remove "1.2.3.4:abc" (mem_store ["5.6.7.8:abc"])
  = Returned nil_error (mem_store ["5.6.7.8:abc"]).
Proof.
  split; [reflexivity|].
  apply (MemIDStore_Remove_absent "1.2.3.4:abc" (mem_store ["5.6.7.8:abc"]));
    [reflexivity|by_evaluation].
Defined.

(** The second of two identical requests, arriving while the first is
    being served. *)
Lemma RequestId_Filter_overlap_witness :
  Store (self (serving ["1.2.3.4:abc"])) = Some (OfMem (mem_store ["1.2.3.4:abc"])) ∧
  made (serving ["1.2.3.4:abc"])
       (RequestId_Filter (post "1.2.3.4" "abc") handler (serving ["1.2.3.4:abc"]))
  = [ReqMethod; ReqHeader "X-Request-Id"; ReqRemoteIP; StoreSave "1.2.3.4:abc";
     RespReportForbidden;
     RespSend "error" "request already accepted before, please wait"] ∧
  ChainCall ∉ made (serving ["1.2.3.4:abc"])
                   (RequestId_Filter (post "1.2.3.4" "abc") handler
                      (serving ["1.2.3.4:abc"])).
Proof.
  split; [reflexivity|].
  destruct (RequestId_Filter_overlap (post "1.2.3.4" "abc") handler
              (serving ["1.2.3.4:abc"])
              (OfMem (mem_store ["1.2.3.4:abc"])) (OfMem (mem_store ["1.2.3.4:abc"])))
    as [Hrun Hno].
  - by_evaluation.
  - by_evaluation.
  - reflexivity.
  - vm_compute. reflexivity.
  - split; [|exact Hno]. rewrite Hrun. vm_compute. reflexivity.
Defined.

(** The remote service cannot be reached when the request arrives. *)
Lemma RequestId_Filter_backend_error_witness :
  ∃ w', RequestId_Filter (post "1.2.3.4" "abc") handler (serving_remote service_down)
        = Panicked (LoggerPanic (Some (ForeignErr "dial tcp: connection refused"))) w' ∧
        calls w'
        = [ReqMethod; ReqHeader "X-Request-Id"; ReqRemoteIP; StoreSave "1.2.3.4:abc";
           LoggerPanicln (LoggerHandle 0)
             (Some (ForeignErr "dial tcp: connection refused"))].
Proof.
  edestruct (RequestId_Filter_backend_error (post "1.2.3.4" "abc") handler
               (serving_remote service_down)) as [_ Hlog].
  - by_evaluation.
  - by_evaluation.
  - reflexivity.
  - reflexivity.
  - discriminate.
  - eexists. split; [apply Hlog; reflexivity|]. reflexivity.
Defined.

(** The remote service becomes unreachable while the request is being
    served: [Remove] fails, and the filter returns as if it had not. *)
Lemma RequestId_Filter_release_witness :
  ∃ w', RequestId_Filter (post "1.2.3.4" "abc") handler_during_outage
          (serving_remote service_up)
        = Returned () w' ∧
        calls w'
        = [ReqMethod; ReqHeader "X-Request-Id"; ReqRemoteIP; StoreSave "1.2.3.4:abc";
           ChainCall; StoreRemove "1.2.3.4:abc"].
Proof.
  edestruct (RequestId_Filter_release (post "1.2.3.4" "abc") handler_during_outage
               (serving_remote service_up)) as [Hrun _].
  - by_evaluation.
  - by_evaluation.
  - reflexivity.
  - reflexivity.
  - reflexivity.
  - reflexivity.
  - eexists. split; [exact Hrun|]. reflexivity.
Defined.

(** In that run [Remove] returned an error, the filter returned, and no
    call was made on the logger. *)
Lemma RequestId_Filter_release_failure_unlogged :
  ∃ v v1 v2 v3,
    Store (self (serving_remote service_up)) = Some v ∧
    IDStoreValue_Save "1.2.3.4:abc" v = Returned nil_error v1 ∧
    handler_during_outage (post "1.2.3.4" "abc") (Some v1) = Returned () (Some v2) ∧
    IDStoreValue_Remove "1.2.3.4:abc" v2
    = Returned (Some (ForeignErr "dial tcp: connection refused")) v3 ∧
    RequestId_Filter (post "1.2.3.4" "abc") handler_during_outage
      (serving_remote service_up)
    = Returned () (final (RequestId_Filter (post "1.2.3.4" "abc") handler_during_outage
                            (serving_remote service_up))) ∧
    ¬ logged (made (serving_remote service_up)
                (RequestId_Filter (post "1.2.3.4" "abc") handler_during_outage
                   (serving_remote service_up))).
Proof.
  do 4 eexists.
  split; [reflexivity|]. split; [reflexivity|]. split; [reflexivity|].
  split; [reflexivity|]. split; [vm_compute; reflexivity|].
  assert (made (serving_remote service_up)
            (RequestId_Filter (post "1.2.3.4" "abc") handler_during_outage
               (serving_remote service_up))
          = [ReqMethod; ReqHeader "X-Request-Id"; ReqRemoteIP; StoreSave "1.2.3.4:abc";
             ChainCall; StoreRemove "1.2.3.4:abc"]) as -> by (vm_compute; reflexivity).
  intros (lg & e & Hin). revert Hin. not_called.
Qed.

(** A GET goes to the chain even through a filter that was never
    initialised and has no store. *)
Lemma RequestId_Filter_GET_witness :
  Store (self (fresh None)) = None ∧
  made (fresh None) (RequestId_Filter (get_request "1.2.3.4" "abc") handler (fresh None))
  = [ReqMethod; ChainCall].
Proof.
  split; [reflexivity|].
  apply (RequestId_Filter_GET (get_request "1.2.3.4" "abc") handler (fresh None)).
  reflexivity.
Defined.

(** No token, and [PassingOnNoId] left at false. *)
Lemma RequestId_Filter_no_token_witness :
  PassingOnNoId (self (serving [])) = false ∧
  RequestId_Filter (post "1.2.3.4" "") handler (serving [])
  = Returned ()
      {| self := self (serving []);
         calls := [ReqMethod; ReqHeader "X-Request-Id"; RespReportBadRequest;
                   RespSend "error" "header value X-Request-Id can't be empty"] |}.
Proof.
  split; [reflexivity|].
  destruct (RequestId_Filter_no_token (post "1.2.3.4" "") handler (serving []))
    as (_ & Hreject & _).
  - by_evaluation.
  - reflexivity.
  - destruct (Hreject eq_refl) as [Hrun _]. exact Hrun.
Defined.

(** Two clients, one token: the second is served while the first is. *)
Lemma scope_id_separates_clients_witness :
  scope_id "1.2.3.4" "abc" ≠ scope_id "5.6.7.8" "abc" ∧
  ChainCall ∈ made (serving ["1.2.3.4:abc"])
                   (RequestId_Filter (post "5.6.7.8" "abc") handler
                      (serving ["1.2.3.4:abc"])).
Proof.
  destruct (scope_id_separates_clients (X := RedisStore)
              (post "1.2.3.4" "abc") (post "5.6.7.8" "abc") "X-Request-Id")
    as (Hne & _ & Hboth).
  - by_evaluation.
  - reflexivity.
  - split; [exact Hne|].
    destruct (Hboth (mem_store [])) as (m1 & m2 & Hsave1 & _ & _ & _ & Hserved).
    + by_evaluation.
    + reflexivity.
    + by_evaluation.
    + by_evaluation.
    + apply Hserved.
      * assert (MemIDStore_Save "1.2.3.4:abc" (mem_store [])
                = Returned nil_error (mem_store ["1.2.3.4:abc"])) as Hrun
          by (vm_compute; reflexivity).
        change (scope_id (RemoteIP (post "1.2.3.4" "abc"))
                  (Header (post "1.2.3.4" "abc") "X-Request-Id"))
          with "1.2.3.4:abc" in Hsave1.
        rewrite Hrun in Hsave1. injection Hsave1 as <-. reflexivity.
      * reflexivity.
      * by_evaluation.
      * by_evaluation.
Defined.

(** The redis component is not loaded: the store's [Init] says so, and
    [RequestId.Init] returns nil over a store that has no connection. *)
Lemma RequestId_Init_returns_nil_witness :
  IDStoreValue_Init env_without_redis (redis_store service_up)
  = Returned (Some (Err "component redis isn't loaded")) (redis_store service_up) ∧
  ∃ w', RequestId_Init env_without_redis (fresh (Some (redis_store service_up)))
        = Returned nil_error w' ∧
        Store (self w') = Some (OfOther ({| Key := ""; redis := None |}, service_up)).
Proof.
  assert (IDStoreValue_Init env_without_redis (redis_store service_up)
          = Returned (Some (Err "component redis isn't loaded")) (redis_store service_up))
    as Hinit by reflexivity.
  split; [exact Hinit|]. eexists. split.
  - apply (proj2 (RequestId_Init_returns_nil env_without_redis
                    (fresh (Some (redis_store service_up)))) _ _ Hinit).
  - reflexivity.
Defined.

(** The first request after that meets the missing connection. *)
Remark RequestId_Filter_after_failed_Init :
  ∃ w', RequestId_Filter (post "1.2.3.4" "abc") handler
          (initialised_with env_without_redis (Some (redis_store service_up)))
        = Panicked NilDereference w' ∧
        ChainCall ∉ calls w'.
Proof.
  eexists. split; [vm_compute; reflexivity|]. not_called.
Qed.

(** A chain that panics leaves the key claimed: [Remove] is never
    reached. *)
Remark RequestId_Filter_key_stuck_after_panic :
  ∃ w', RequestId_Filter (post "1.2.3.4" "abc") handler_panicking (serving [])
        = Panicked (ForeignPanic "handler failed") w' ∧
        Store (self w') = Some (OfMem (mem_store ["1.2.3.4:abc"])) ∧
        StoreRemove "1.2.3.4:abc" ∉ calls w'.
Proof.
  eexists. split.
  - eapply (RequestId_Filter_chain_panics (post "1.2.3.4" "abc") handler_panicking
              (serving []));
      [by_evaluation|by_evaluation|reflexivity|vm_compute; reflexivity|reflexivity].
  - split; [reflexivity|]. not_called.
Qed.

(** * Further properties *)

(** Equations between sets of keys built from [∪], [∖], singletons and
    [∅], by membership. *)
Ltac keys_eq :=
  apply set_eq; intros ?;
  rewrite ?elem_of_union, ?elem_of_difference, ?elem_of_singleton, ?elem_of_empty;
  intuition (subst; auto).

(** ** The life of a MemIDStore *)

Lemma member_claimed k m : member k m ↔ k ∈ claimed m.
Proof.
  destruct m as [[r|] l]; unfold claimed; simpl.
  - by rewrite member_Some, elem_of_dom.
  - split; [by intros ?%member_None|by intros ?%not_elem_of_empty].
Qed.

(** X1: [Init] makes any store usable.  Whatever state it finds (never
    initialised, destroyed, holding keys, or with the mutex left locked
    by a [Save] that panicked), it returns nil and leaves an empty store
    with a free mutex, on which every key can be claimed. *)
Theorem MemIDStore_Init_resets (env : Enviroment) (m : MemIDStore) :
  ∃ m', MemIDStore_Init env m = Returned nil_error m' ∧
        claimed m' = ∅ ∧ initialised m' ∧ idle m' ∧
        ∀ k, ∃ m'', MemIDStore_Save k m' = Returned nil_error m'' ∧
                    claimed m'' = {[k]}.
Proof.
  eexists. split; [reflexivity|]. split; [apply dom_empty_L|].
  split; [by eexists|]. split; [done|].
  intros k. eexists. split; [apply MemIDStore_Save_absent, lookup_empty|].
  unfold claimed. simpl. rewrite dom_insert_L, dom_empty_L. keys_eq.
Qed.

(** X2: after [Destroy], [Remove] is still a harmless no-op, but [Save]
    panics on the nil map while it holds the mutex; nothing unlocks it, so
    from then on every [Save] and every [Remove] on the store blocks. *)
Theorem MemIDStore_use_after_Destroy (m : MemIDStore) (id : string) :
  idle m →
  ∃ m1 m2,
    MemIDStore_Destroy m = Returned () m1 ∧
    claimed m1 = ∅ ∧
    MemIDStore_Remove id m1 = Returned nil_error m1 ∧
    MemIDStore_Save id m1 = Panicked NilMapAssignment m2 ∧
    ∀ id', MemIDStore_Save id' m2 = Blocked m2 ∧
           MemIDStore_Remove id' m2 = Blocked m2.
Proof.
  destruct m as [r l]. unfold idle; simpl; intros ->.
  exists {| requests := None; lock := Free |}, {| requests := None; lock := Held |}.
  repeat split.
Qed.

Lemma MemIDStore_use_after_Destroy_witness :
  idle (mem_store ["1.2.3.4:abc"]) ∧
  ∃ m1 m2,
    MemIDStore_Destroy (mem_store ["1.2.3.4:abc"]) = Returned () m1 ∧
    MemIDStore_Save "5.6.7.8:abc" m1 = Panicked NilMapAssignment m2 ∧
    MemIDStore_Remove "5.6.7.8:abc" m2 = Blocked m2.
Proof.
  split; [reflexivity|].
  destruct (MemIDStore_use_after_Destroy (mem_store ["1.2.3.4:abc"]) "5.6.7.8:abc")
    as (m1 & m2 & Hd & _ & _ & Hs & Hb); [reflexivity|].
  exists m1, m2. split; [exact Hd|]. split; [exact Hs|].
  exact (proj2 (Hb "5.6.7.8:abc")).
Defined.

(** X3: [Remove] never fails: on any store whose mutex is free, nil map
    included, it returns nil, takes [id] out of the claimed keys, leaves
    every other key as it was, and gives the mutex back. *)
Theorem MemIDStore_Remove_releases (m : MemIDStore) (id : string) :
  idle m →
  ∃ m', MemIDStore_Remove id m = Returned nil_error m' ∧
        claimed m' = claimed m ∖ {[id]} ∧
        idle m' ∧ (initialised m' ↔ initialised m).
Proof.
  destruct m as [r l]. unfold idle; simpl; intros ->.
  eexists. split; [apply MemIDStore_Remove_free|].
  destruct r as [r|]; unfold claimed, initialised; simpl.
  - split; [apply dom_delete_L|]. split; [done|]. split; intros _; by eexists.
  - split; [keys_eq|]. done.
Qed.

Lemma MemIDStore_Remove_releases_witness :
  idle (mem_store ["1.2.3.4:abc"; "5.6.7.8:abc"]) ∧
  ∃ m', MemIDStore_Remove "1.2.3.4:abc" (mem_store ["1.2.3.4:abc"; "5.6.7.8:abc"])
        = Returned nil_error m' ∧
        claimed m' = claimed (mem_store ["1.2.3.4:abc"; "5.6.7.8:abc"]) ∖ {["1.2.3.4:abc"]}.
Proof.
  split; [reflexivity|].
  destruct (MemIDStore_Remove_releases (mem_store ["1.2.3.4:abc"; "5.6.7.8:abc"])
              "1.2.3.4:abc") as (m' & Hr & Hc & _); [reflexivity|].
  exists m'. split; [exact Hr|exact Hc].
Defined.

(** X4: any sequence of [Save] and [Remove] calls on an initialised store
    with a free mutex runs to its end without panicking or blocking, and
    does what the same calls do on a plain set of keys: same answers, same
    keys left claimed.  The store stays initialised and its mutex free. *)
Theorem MemIDStore_as_set (ops : list Op) (m : MemIDStore) :
  initialised m → idle m →
  ∃ m', run_ops ops m = Returned (set_run ops (claimed m)).1 m' ∧
        claimed m' = (set_run ops (claimed m)).2 ∧
        initialised m' ∧ idle m'.
Proof.
  destruct m as [[r|] l]; intros Hinit Hidle; [|by destruct Hinit].
  unfold idle in Hidle; simpl in Hidle; subst l. clear Hinit.
  revert r. induction ops as [|[id|id] ops IH]; intros r.
  - eexists. split; [reflexivity|]. split; [done|]. split; [by eexists|done].
  - change (claimed {| requests := Some r; lock := Free |}) with (dom r).
    cbn [set_run]. destruct (r !! id) as [[]|] eqn:Hid.
    + destruct (IH r) as (m' & Hrun & Hc & Hi).
      change (claimed {| requests := Some r; lock := Free |}) with (dom r) in Hrun, Hc.
      assert ({[id]} ∪ dom r = dom r) as ->.
      { apply elem_of_dom_2 in Hid. keys_eq. }
      destruct (set_run ops (dom r)) as [es s'] eqn:Hset. simpl in Hrun, Hc.
      exists m'. rewrite decide_True by (by eapply elem_of_dom_2).
      erewrite run_ops_cons by (apply MemIDStore_Save_present; by rewrite Hid).
      by rewrite (bind_Returned _ _ _ _ _ Hrun).
    + destruct (IH (<[id := ()]> r)) as (m' & Hrun & Hc & Hi).
      change (claimed {| requests := Some (<[id := ()]> r); lock := Free |})
        with (dom (<[id := ()]> r)) in Hrun, Hc.
      rewrite dom_insert_L in Hrun, Hc.
      destruct (set_run ops ({[id]} ∪ dom r)) as [es s'] eqn:Hset. simpl in Hrun, Hc.
      exists m'. rewrite decide_False by (by apply not_elem_of_dom).
      erewrite run_ops_cons by (by apply MemIDStore_Save_absent).
      by rewrite (bind_Returned _ _ _ _ _ Hrun).
  - change (claimed {| requests := Some r; lock := Free |}) with (dom r).
    cbn [set_run].
    destruct (IH (delete id r)) as (m' & Hrun & Hc & Hi).
    change (claimed {| requests := Some (delete id r); lock := Free |})
      with (dom (delete id r)) in Hrun, Hc.
    rewrite dom_delete_L in Hrun, Hc.
    destruct (set_run ops (dom r ∖ {[id]})) as [es s'] eqn:Hset. simpl in Hrun, Hc.
    exists m'.
    erewrite run_ops_cons by apply MemIDStore_Remove_free.
    by rewrite (bind_Returned _ _ _ _ _ Hrun).
Qed.

Lemma MemIDStore_as_set_witness :
  initialised (mem_store ["k"]) ∧ idle (mem_store ["k"]) ∧
  ∃ m', run_ops [OpSave "k"; OpRemove "k"; OpSave "k"; OpSave "j"; OpSave "k"]
          (mem_store ["k"])
        = Returned [Some ErrRequestIDExist; nil_error; nil_error; nil_error;
                    Some ErrRequestIDExist] m' ∧
        initialised m' ∧ idle m'.
Proof.
  assert (initialised (mem_store ["k"])) as Hinit by by_evaluation.
  split; [exact Hinit|]. split; [reflexivity|].
  destruct (MemIDStore_as_set
              [OpSave "k"; OpRemove "k"; OpSave "k"; OpSave "j"; OpSave "k"]
              (mem_store ["k"]) Hinit eq_refl) as (m' & Hrun & _ & Hi).
  exists m'. split; [exact Hrun|exact Hi].
Defined.

(** ** Goroutines inside Save *)

(** A goroutine that runs alone through the steps of [Save] ends where
    [MemIDStore.Save] says: the steps are the statements of the method. *)
Lemma Save_alone_Save (id : string) (m : MemIDStore) :
  match MemIDStore_Save id m with
  | Returned e m' => Save_alone 4 id BeforeLock m = (HasReturned e, m')
  | Panicked p m' => Save_alone 4 id BeforeLock m = (HasPanicked p, m')
  | Blocked m' => Save_alone 4 id BeforeLock m = (BeforeLock, m')
  end.
Proof.
  destruct m as [[r|] [|]]; try reflexivity.
  destruct (r !! id) as [[]|] eqn:Hid.
  - rewrite MemIDStore_Save_present by (by rewrite Hid).
    unfold Save_alone, Save_step, mutex_Lock, map_has, mutex_Unlock. simpl.
    by rewrite bool_decide_eq_true_2 by (by rewrite Hid).
  - rewrite MemIDStore_Save_absent by done.
    unfold Save_alone, Save_step, mutex_Lock, map_has, map_assign, mutex_Unlock. simpl.
    rewrite bool_decide_eq_false_2; [done|]. rewrite Hid. by intros [? [=]].
Qed.

(** The goroutine is between [Lock] and [Unlock]. *)
Definition in_section (pt : SavePoint) : bool :=
  match pt with
  | BeforeLookup | BeforeBranch _ | BeforeUnlock _ => true
  | BeforeLock | HasReturned _ | HasPanicked _ => false
  end.

(** The goroutine has claimed its key. *)
Definition won (pt : SavePoint) : bool :=
  match pt with
  | BeforeUnlock None | HasReturned None => true
  | _ => false
  end.

(** How many steps the goroutine has ahead of it when nothing stops it. *)
Definition steps_left (pt : SavePoint) : nat :=
  match pt with
  | BeforeLock => 4
  | BeforeLookup => 3
  | BeforeBranch _ => 2
  | BeforeUnlock _ => 1
  | HasReturned _ | HasPanicked _ => 0
  end.

Fixpoint tally (P : Goroutine → bool) (gs : list Goroutine) : nat :=
  match gs with
  | [] => 0
  | g :: gs' => (if P g then 1 else 0) + tally P gs'
  end.

Definition inside (gs : list Goroutine) : nat :=
  tally (λ g, in_section (g_at g)) gs.

Definition wins (k : string) (gs : list Goroutine) : nat :=
  tally (λ g, bool_decide (g_id g = k) && won (g_at g)) gs.

(** What a goroutine at its point has seen of the map [r]. *)
Definition knows (r : gmap string unit) (g : Goroutine) : Prop :=
  match g_at g with
  | BeforeLock | BeforeLookup => True
  | BeforeBranch has => has = bool_decide (is_Some (r !! g_id g))
  | BeforeUnlock e | HasReturned e =>
      is_Some (r !! g_id g) ∧ (e = None ∨ e = Some ErrRequestIDExist)
  | HasPanicked _ => False
  end.

(** What holds of a pool at every moment, when it was spawned on keys
    [ids] over a store holding [r0]: the map is allocated; the mutex is
    held exactly when one goroutine is in the critical section, and no
    more than one ever is; a key is in the map exactly when it was there
    at the start or one goroutine, and one only, has claimed it. *)
Definition pool_inv (r0 : gmap string unit) (ids : list string) (p : Pool) : Prop :=
  ∃ r, requests (pool_store p) = Some r ∧
       inside (pool_goroutines p)
       = (if decide (lock (pool_store p) = Held) then 1 else 0) ∧
       (∀ k, wins k (pool_goroutines p) + (if decide (is_Some (r0 !! k)) then 1 else 0)
             = if decide (is_Some (r !! k)) then 1 else 0) ∧
       Forall (knows r) (pool_goroutines p) ∧
       g_id <$> pool_goroutines p = ids.

Lemma tally_app P gs1 gs2 : tally P (gs1 ++ gs2) = tally P gs1 + tally P gs2.
Proof. induction gs1 as [|g gs1 IH]; simpl; [done|]. rewrite IH. lia. Qed.

Lemma tally_zero P gs : tally P gs = 0 → Forall (λ g, P g = false) gs.
Proof.
  induction gs as [|g gs IH]; simpl; intros Hz; [constructor|].
  destruct (P g) eqn:HP; [lia|]. constructor; [done|]. apply IH. lia.
Qed.

Lemma tally_le P Q gs : (∀ g, P g = true → Q g = true) → (tally P gs ≤ tally Q gs)%nat.
Proof.
  intros HPQ. induction gs as [|g gs IH]; simpl; [done|].
  destruct (P g) eqn:HP; [rewrite (HPQ g HP)|destruct (Q g)]; lia.
Qed.

Lemma tally_ext P Q gs :
  Forall (λ g, P g = Q g) gs → tally P gs = tally Q gs.
Proof. induction 1 as [|g gs Hg _ IH]; simpl; [done|]. by rewrite Hg, IH. Qed.

Lemma tally_filter (P : Goroutine → Prop) `{!∀ g, Decision (P g)} gs :
  length (filter P gs) = tally (λ g, bool_decide (P g)) gs.
Proof.
  induction gs as [|g gs IH]; simpl; [done|].
  rewrite filter_cons. case_bool_decide; destruct (decide (P g)); try done; simpl; lia.
Qed.

Lemma pool_goroutines_split i p g :
  pool_goroutines p !! i = Some g →
  pool_goroutines p
  = take i (pool_goroutines p) ++ g :: drop (S i) (pool_goroutines p) ∧
  ∀ g', <[i := g']> (pool_goroutines p)
        = take i (pool_goroutines p) ++ g' :: drop (S i) (pool_goroutines p).
Proof.
  intros Hi. split; [by rewrite take_drop_middle|].
  intros g'. apply insert_take_drop. by eapply lookup_lt_Some.
Qed.

Lemma pool_inv_spawn r0 ids :
  pool_inv r0 ids (spawn ids {| requests := Some r0; lock := Free |}).
Proof.
  exists r0. simpl. split; [done|]. split; [|split; [|split]].
  - unfold inside. induction ids as [|id ids IH]; simpl; [done|]. exact IH.
  - intros k.
    assert (wins k ((λ id, {| g_id := id; g_at := BeforeLock |}) <$> ids) = 0) as ->.
    { unfold wins. induction ids as [|id ids IH]; simpl; [done|].
      rewrite andb_false_r. exact IH. }
    done.
  - apply Forall_fmap, Forall_forall. by intros id _.
  - rewrite <-list_fmap_compose. apply list_fmap_id.
Qed.

Lemma knows_insert r j g :
  knows r g → in_section (g_at g) = false → knows (<[j := ()]> r) g.
Proof.
  unfold knows. destruct (g_at g) as [| |has|e|e|pv]; simpl; try done.
  intros [Hs He] _. split; [|done].
  rewrite lookup_insert_is_Some. destruct (decide (j = g_id g)); auto.
Qed.

Lemma is_Some_decide_insert_ne (r : gmap string unit) j k :
  j ≠ k →
  (if decide (is_Some (<[j := ()]> r !! k)) then 1 else 0)
  = if decide (is_Some (r !! k)) then 1 else 0.
Proof. intros Hne. by rewrite lookup_insert_ne. Qed.

(** No step of any goroutine breaks the invariant. *)
Lemma pool_inv_step r0 ids i p : pool_inv r0 ids p → pool_inv r0 ids (pool_step i p).
Proof.
  intros Hinv. pose proof Hinv as (r & Hr & Hin & Hwin & Hk & Hids).
  unfold pool_step.
  destruct (pool_goroutines p !! i) as [g|] eqn:Hi; [|exact Hinv].
  destruct (pool_goroutines_split _ _ _ Hi) as [Hgs Hins].
  destruct (Save_step (g_id g) (g_at g) (pool_store p)) as [[pt' m']|] eqn:Hstep;
    [|exact Hinv].
  unfold pool_inv. simpl. rewrite Hins.
  set (l1 := take i (pool_goroutines p)) in *.
  set (l2 := drop (S i) (pool_goroutines p)) in *.
  clearbody l1 l2. clear Hins Hi Hinv.
  destruct p as [[rq l] gs]. simpl in *. subst rq gs.
  destruct g as [j pt]. simpl in *.
  unfold inside, wins in *.
  rewrite fmap_app in *. simpl in *.
  apply Forall_app in Hk as [Hk1 Hk2]. apply Forall_cons in Hk2 as [Hg Hk2].
  rewrite tally_app in Hin. simpl in Hin.
  assert (∀ k, tally (λ g, bool_decide (g_id g = k) && won (g_at g)) l1
               + ((if bool_decide (j = k) && won pt then 1 else 0)
                  + tally (λ g, bool_decide (g_id g = k) && won (g_at g)) l2)
               + (if decide (is_Some (r0 !! k)) then 1 else 0)
               = if decide (is_Some (r !! k)) then 1 else 0) as Hwin'.
  { intros k. specialize (Hwin k). by rewrite tally_app in Hwin. }
  clear Hwin. unfold knows in Hg. simpl in Hg.
  destruct pt as [| |[|]|e|e|pv]; simpl in Hstep.
  - (* Lock *)
    unfold mutex_Lock in Hstep. simpl in Hstep.
    destruct l; [|done]. injection Hstep as <- <-. simpl in *.
    exists r. split; [done|]. rewrite !tally_app. simpl.
    split; [lia|]. split; [|split; [|done]].
    + intros k. specialize (Hwin' k). rewrite tally_app. simpl.
      rewrite andb_false_r in *. exact Hwin'.
    + apply Forall_app. split; [done|]. by constructor.
  - (* the lookup *)
    unfold map_has in Hstep. simpl in Hstep. injection Hstep as <- <-. simpl in *.
    exists r. split; [done|]. rewrite !tally_app. simpl.
    split; [lia|]. split; [|split; [|done]].
    + intros k. specialize (Hwin' k). rewrite tally_app. simpl.
      rewrite andb_false_r in *. exact Hwin'.
    + apply Forall_app. split; [done|]. by constructor.
  - (* the key is there *)
    injection Hstep as <- <-. simpl in *.
    exists r. split; [done|]. rewrite !tally_app. simpl.
    split; [lia|]. split; [|split; [|done]].
    + intros k. specialize (Hwin' k). rewrite tally_app. simpl.
      rewrite andb_false_r in *. exact Hwin'.
    + apply Forall_app. split; [done|]. constructor; [|done].
      unfold knows. simpl. split; [|by right].
      symmetry in Hg. by apply bool_decide_eq_true_1 in Hg.
  - (* the key is not there: the assignment *)
    unfold map_assign in Hstep. simpl in Hstep. injection Hstep as <- <-. simpl in *.
    assert (r !! j = None) as Hj.
    { symmetry in Hg. apply bool_decide_eq_false_1 in Hg.
      destruct (r !! j) eqn:E; [|done]. destruct Hg; eauto. }
    assert (tally (λ g, in_section (g_at g)) l1 = 0 ∧
            tally (λ g, in_section (g_at g)) l2 = 0) as [Hl1 Hl2].
    { destruct (decide (l = Held)); lia. }
    exists (<[j := ()]> r). split; [done|]. rewrite !tally_app. simpl.
    split; [lia|]. split; [|split; [|done]].
    + intros k. specialize (Hwin' k). rewrite tally_app. simpl.
      destruct (decide (j = k)) as [->|Hne].
      * rewrite bool_decide_eq_true_2 in * by done. simpl in *.
        destruct (decide (is_Some (<[k := ()]> r !! k))) as [_|[]];
          [|rewrite lookup_insert_eq; eauto].
        destruct (decide (is_Some (r !! k))) as [[? Hy]|_]; [congruence|]. lia.
      * rewrite bool_decide_eq_false_2 in * by done. simpl in *.
        by rewrite is_Some_decide_insert_ne.
    + apply Forall_app. split; [|constructor].
      * apply tally_zero in Hl1. eapply Forall_impl; [apply Forall_and; split; [exact Hk1|exact Hl1]|].
        intros h [? ?]. by apply knows_insert.
      * unfold knows. simpl. split; [rewrite lookup_insert_eq; eauto|by left].
      * apply tally_zero in Hl2. eapply Forall_impl; [apply Forall_and; split; [exact Hk2|exact Hl2]|].
        intros h [? ?]. by apply knows_insert.
  - (* Unlock *)
    unfold mutex_Unlock in Hstep. simpl in Hstep.
    simpl in Hin.
    destruct l; [rewrite decide_False in Hin by done; exfalso; lia|].
    injection Hstep as <- <-. simpl in *.
    exists r. split; [done|]. rewrite !tally_app. simpl.
    split; [lia|]. split; [|split; [|done]].
    + intros k. specialize (Hwin' k). rewrite tally_app. simpl. exact Hwin'.
    + apply Forall_app. split; [done|]. by constructor.
  - done.
  - done.
Qed.

Lemma pool_inv_run r0 ids schedule p :
  pool_inv r0 ids p → pool_inv r0 ids (run_schedule schedule p).
Proof.
  revert p. induction schedule as [|i schedule IH]; intros p Hinv; [done|].
  simpl. by apply IH, pool_inv_step.
Qed.

Lemma tally_pos P gs : tally P gs ≠ 0 → ∃ i g, gs !! i = Some g ∧ P g = true.
Proof.
  induction gs as [|g gs IH]; simpl; [done|]. destruct (P g) eqn:HP.
  - intros _. by exists 0, g.
  - intros Hne. destruct IH as (i & h & Hi & Hh); [lia|]. by exists (S i), h.
Qed.

Fixpoint total_left (gs : list Goroutine) : nat :=
  match gs with
  | [] => 0
  | g :: gs' => steps_left (g_at g) + total_left gs'
  end.

Lemma total_left_app gs1 gs2 :
  total_left (gs1 ++ gs2) = total_left gs1 + total_left gs2.
Proof. induction gs1 as [|g gs1 IH]; simpl; [done|]. rewrite IH. lia. Qed.

Lemma total_left_pos gs :
  total_left gs ≠ 0 → ∃ i g, gs !! i = Some g ∧ steps_left (g_at g) ≠ 0.
Proof.
  induction gs as [|g gs IH]; simpl; [done|].
  destruct (decide (steps_left (g_at g) = 0)) as [Hz|Hnz].
  - intros Hne. destruct IH as (i & h & Hi & Hh); [lia|]. by exists (S i), h.
  - intros _. by exists 0, g.
Qed.

Lemma total_left_zero r gs :
  Forall (knows r) gs → total_left gs = 0 →
  Forall (λ g, ∃ e, g_at g = HasReturned e) gs.
Proof.
  induction 1 as [|g gs Hg _ IH]; simpl; intros Hz; [constructor|].
  constructor; [|apply IH; lia].
  unfold knows in Hg. destruct (g_at g); simpl in Hz; try lia; try done; eauto.
Qed.

(** A goroutine that can move takes the pool one step nearer to the
    end. *)
Lemma pool_step_left i p g pt' m' :
  pool_goroutines p !! i = Some g →
  Save_step (g_id g) (g_at g) (pool_store p) = Some (pt', m') →
  steps_left (g_at g) = S (steps_left pt') →
  total_left (pool_goroutines p) = S (total_left (pool_goroutines (pool_step i p))).
Proof.
  intros Hi Hstep Hleft. unfold pool_step. rewrite Hi, Hstep. simpl.
  destruct (pool_goroutines_split _ _ _ Hi) as [Hgs Hins].
  rewrite Hins. rewrite Hgs at 1. rewrite !total_left_app. simpl. lia.
Qed.

(** While some goroutine has not returned, some goroutine can move. *)
Lemma pool_inv_progress r0 ids p :
  pool_inv r0 ids p → total_left (pool_goroutines p) ≠ 0 →
  ∃ i, total_left (pool_goroutines p)
       = S (total_left (pool_goroutines (pool_step i p))).
Proof.
  intros (r & Hr & Hin & _ & Hk & _) Hleft.
  destruct (lock (pool_store p)) eqn:Hl; simpl in Hin.
  - (* the mutex is free: whoever has not returned is waiting for it *)
    destruct (total_left_pos _ Hleft) as (i & g & Hi & Hg).
    assert (g_at g = BeforeLock) as Hat.
    { apply tally_zero in Hin.
      pose proof (Forall_lookup_1 _ _ _ _ Hin Hi) as Hout.
      pose proof (Forall_lookup_1 _ _ _ _ Hk Hi) as Hkn.
      unfold knows in Hkn. simpl in Hout. by destruct (g_at g). }
    exists i. eapply (pool_step_left i p g); [done|..].
    + rewrite Hat. unfold Save_step, mutex_Lock. by rewrite Hl.
    + by rewrite Hat.
  - (* the mutex is held: its holder can go on *)
    destruct (tally_pos (λ g, in_section (g_at g)) (pool_goroutines p))
      as (i & g & Hi & Hg); [unfold inside in Hin; by rewrite Hin|].
    pose proof (Forall_lookup_1 _ _ _ _ Hk Hi) as Hkn. unfold knows in Hkn.
    exists i. destruct (g_at g) as [| |[|]|e|e|pv] eqn:Hat; try done.
    + eapply (pool_step_left i p g); [done|..]; rewrite Hat; reflexivity.
    + eapply (pool_step_left i p g); [done|..]; rewrite Hat; reflexivity.
    + eapply (pool_step_left i p g); [done|..]; rewrite Hat;
        [unfold Save_step, map_assign; by rewrite Hr|done].
    + eapply (pool_step_left i p g); [done|..]; rewrite Hat;
        [unfold Save_step, mutex_Unlock; by rewrite Hl|done].
Qed.

Lemma pool_inv_completes r0 ids n :
  ∀ p, pool_inv r0 ids p → total_left (pool_goroutines p) = n →
       ∃ more, all_returned (run_schedule more p).
Proof.
  induction n as [|n IH]; intros p Hinv Hn.
  - exists []. simpl. destruct Hinv as (r & _ & _ & _ & Hk & _).
    by eapply total_left_zero.
  - destruct (pool_inv_progress _ _ _ Hinv ltac:(lia)) as [i Hi].
    destruct (IH (pool_step i p)) as [more Hmore];
      [by apply pool_inv_step|lia|].
    by exists (i :: more).
Qed.

Lemma returned_tally k e p :
  returned_with k e p
  = tally (λ g, bool_decide (g = {| g_id := k; g_at := HasReturned e |}))
          (pool_goroutines p).
Proof. unfold returned_with. apply tally_filter. Qed.

Lemma returned_sum k gs :
  Forall (λ g, ∃ e, g_at g = HasReturned e ∧ (e = None ∨ e = Some ErrRequestIDExist)) gs →
  tally (λ g, bool_decide (g = {| g_id := k; g_at := HasReturned nil_error |})) gs
  + tally (λ g, bool_decide
                  (g = {| g_id := k; g_at := HasReturned (Some ErrRequestIDExist) |})) gs
  = length (filter (λ id, id = k) (g_id <$> gs)).
Proof.
  induction 1 as [|[j pt] gs (e & Hat & He) _ IH]; [done|].
  simpl in Hat. subst pt. rewrite fmap_cons, filter_cons. cbn [tally g_id].
  destruct (decide (j = k)) as [->|Hne]; cbn [length].
  - destruct He as [->| ->].
    + rewrite bool_decide_eq_true_2 by done.
      rewrite bool_decide_eq_false_2 by congruence. lia.
    + rewrite bool_decide_eq_false_2 by congruence.
      rewrite bool_decide_eq_true_2 by done. lia.
  - rewrite !bool_decide_eq_false_2 by congruence. lia.
Qed.

(** X5: goroutines that call [Save] at the same time on one initialised
    store, interleaved in any way.  At every moment at most one of those
    that called [Save(k)] has got nil, and none when [k] was claimed
    before; no goroutine has panicked.  Once all have returned, and some
    goroutine called [Save(k)]: exactly one got nil if [k] was free (none
    if it was claimed), and every other one got [ErrRequestIDExist]. *)
Theorem Save_exclusive_in_any_schedule
    (ids : list string) (m : MemIDStore) (schedule : list nat) (k : string) :
  initialised m → idle m →
  (returned_with k nil_error (run_schedule schedule (spawn ids m))
   ≤ if decide (k ∈ claimed m) then 0 else 1)%nat ∧
  Forall (λ g, ∀ pv, g_at g ≠ HasPanicked pv)
         (pool_goroutines (run_schedule schedule (spawn ids m))) ∧
  (all_returned (run_schedule schedule (spawn ids m)) → k ∈ ids →
     returned_with k nil_error (run_schedule schedule (spawn ids m))
     = (if decide (k ∈ claimed m) then 0 else 1) ∧
     returned_with k nil_error (run_schedule schedule (spawn ids m))
     + returned_with k (Some ErrRequestIDExist) (run_schedule schedule (spawn ids m))
     = length (filter (λ id, id = k) ids)).
Proof.
  destruct m as [[r0|] l]; intros Hinit Hidle; [|by destruct Hinit].
  unfold idle in Hidle; simpl in Hidle; subst l. clear Hinit.
  change (claimed {| requests := Some r0; lock := Free |}) with (dom r0).
  rewrite (decide_ext _ _ 0 1 (elem_of_dom r0 k)).
  pose proof (pool_inv_run r0 ids schedule _ (pool_inv_spawn r0 ids))
    as (r & Hr & Hin & Hwin & Hk & Hids).
  set (p := run_schedule schedule (spawn ids {| requests := Some r0; lock := Free |})) in *.
  rewrite !returned_tally. specialize (Hwin k).
  assert (tally (λ g, bool_decide (g = {| g_id := k; g_at := HasReturned nil_error |}))
            (pool_goroutines p) ≤ wins k (pool_goroutines p))%nat as Hle.
  { apply tally_le. intros g ->%bool_decide_eq_true_1. simpl.
    by rewrite bool_decide_eq_true_2. }
  split; [|split].
  - destruct (decide (is_Some (r0 !! k))), (decide (is_Some (r !! k))); lia.
  - eapply Forall_impl; [exact Hk|]. intros g Hg pv Hat.
    unfold knows in Hg. by rewrite Hat in Hg.
  - intros Hall Hkin.
    assert (Forall (λ g, ∃ e, g_at g = HasReturned e ∧
                              (e = None ∨ e = Some ErrRequestIDExist))
                   (pool_goroutines p)) as Hres.
    { eapply Forall_impl; [apply Forall_and; split; [exact Hall|exact Hk]|].
      intros g [[e Hat] Hg]. unfold knows in Hg. rewrite Hat in Hg.
      exists e. by destruct Hg. }
    assert (is_Some (r !! k)) as Hclaimed.
    { rewrite <-Hids in Hkin. apply list_elem_of_fmap in Hkin as (g & -> & Hg).
      pose proof (proj1 (Forall_forall _ _) Hk g Hg) as Hkn.
      pose proof (proj1 (Forall_forall _ _) Hall g Hg) as [e Hat].
      unfold knows in Hkn. rewrite Hat in Hkn. by destruct Hkn. }
    assert (wins k (pool_goroutines p)
            = tally (λ g, bool_decide
                            (g = {| g_id := k; g_at := HasReturned nil_error |}))
                    (pool_goroutines p)) as Hw.
    { apply tally_ext. eapply Forall_impl; [exact Hres|].
      intros [j pt] (e & Hat & He). simpl in *. subst pt.
      destruct (decide (j = k)) as [->|Hne].
      - rewrite bool_decide_eq_true_2 by done.
        destruct He as [->| ->]; simpl;
          [by rewrite bool_decide_eq_true_2|by rewrite bool_decide_eq_false_2].
      - rewrite bool_decide_eq_false_2 by done.
        by rewrite bool_decide_eq_false_2 by congruence. }
    rewrite Hw in Hwin. split.
    + destruct (decide (is_Some (r0 !! k))), (decide (is_Some (r !! k)));
        try done; lia.
    + rewrite returned_sum by done. by rewrite Hids.
Qed.

(** Three goroutines, two of them after the same key, their steps
    interleaved: of the two, one gets nil and one "already exists". *)
Lemma Save_exclusive_in_any_schedule_witness :
  initialised (mem_store []) ∧ idle (mem_store []) ∧
  all_returned (run_schedule [1; 0; 1; 2; 1; 1; 0; 2; 0; 0; 0; 2; 2; 2; 2]
                  (spawn ["a"; "a"; "b"] (mem_store []))) ∧
  returned_with "a" nil_error
    (run_schedule [1; 0; 1; 2; 1; 1; 0; 2; 0; 0; 0; 2; 2; 2; 2]
       (spawn ["a"; "a"; "b"] (mem_store []))) = 1 ∧
  returned_with "a" (Some ErrRequestIDExist)
    (run_schedule [1; 0; 1; 2; 1; 1; 0; 2; 0; 0; 0; 2; 2; 2; 2]
       (spawn ["a"; "a"; "b"] (mem_store []))) = 1.
Proof.
  assert (initialised (mem_store [])) as Hinit by by_evaluation.
  assert (all_returned (run_schedule [1; 0; 1; 2; 1; 1; 0; 2; 0; 0; 0; 2; 2; 2; 2]
                          (spawn ["a"; "a"; "b"] (mem_store [])))) as Hall.
  { vm_compute. repeat (apply Forall_cons_2; [eexists; reflexivity|]).
    apply Forall_nil_2. }
  split; [exact Hinit|]. split; [reflexivity|]. split; [exact Hall|].
  destruct (Save_exclusive_in_any_schedule ["a"; "a"; "b"] (mem_store [])
              [1; 0; 1; 2; 1; 1; 0; 2; 0; 0; 0; 2; 2; 2; 2] "a" Hinit eq_refl)
    as (_ & _ & Hdone).
  destruct (Hdone Hall) as [Hone Hsum]; [by_evaluation|].
  split; [exact Hone|]. rewrite Hone in Hsum.
  change (length (filter (λ id, id = "a") ["a"; "a"; "b"])) with 2 in Hsum.
  apply (Nat.add_cancel_l _ 1 1). exact Hsum.
Defined.

(** X6: goroutines that call [Save] at the same time on one initialised
    store never get stuck: from any point of any schedule the scheduler
    can go on until every goroutine has returned. *)
Theorem Save_schedule_completes (ids : list string) (m : MemIDStore) (schedule : list nat) :
  initialised m → idle m →
  ∃ more, all_returned (run_schedule (schedule ++ more) (spawn ids m)).
Proof.
  destruct m as [[r0|] l]; intros Hinit Hidle; [|by destruct Hinit].
  unfold idle in Hidle; simpl in Hidle; subst l.
  pose proof (pool_inv_run r0 ids schedule _ (pool_inv_spawn r0 ids)) as Hinv.
  destruct (pool_inv_completes r0 ids _ _ Hinv eq_refl) as [more Hmore].
  exists more. unfold run_schedule in *. by rewrite foldl_app.
Qed.

Lemma Save_schedule_completes_witness :
  initialised (mem_store ["a"]) ∧ idle (mem_store ["a"]) ∧
  ∃ more, all_returned (run_schedule ([1; 0; 0; 1] ++ more)
                          (spawn ["a"; "b"] (mem_store ["a"]))).
Proof.
  assert (initialised (mem_store ["a"])) as Hinit by by_evaluation.
  split; [exact Hinit|]. split; [reflexivity|].
  exact (Save_schedule_completes ["a"; "b"] (mem_store ["a"]) [1; 0; 0; 1] Hinit eq_refl).
Defined.

(** ** Everything the filter can do *)

Section Shape.
Context {X : Type} `{!IDStore X}.
Implicit Types (w : @World X) (v : @IDStoreValue X) (req : Request)
               (chain : @FilterChain X) (ri : @RequestId X).

Lemma set_Store_set_Store s s' ri : set_Store s (set_Store s' ri) = set_Store s ri.
Proof. reflexivity. Qed.

Lemma set_Store_Store ri : set_Store (Store ri) ri = ri.
Proof. by destruct ri. Qed.

(** A call through [ri.Store] changes nothing of the filter but the
    store. *)
Lemma through_Store_final {A} c (method : Go IDStoreValue A) w :
  (∃ s, self (final (through_Store c method w)) = set_Store s (self w)) ∧
  calls (final (through_Store c method w))
  = calls w ++ match Store (self w) with Some _ => [c] | None => [] end.
Proof.
  destruct (Store (self w)) as [v|] eqn:Hs.
  - destruct (method v) as [a v'|p v'|v'] eqn:Hm.
    + erewrite through_Store_Returned by done. simpl. eauto.
    + erewrite through_Store_Panicked by done. simpl. eauto.
    + erewrite through_Store_Blocked by done. simpl. eauto.
  - rewrite through_Store_nil by done. simpl. rewrite app_nil_r. split; [|done].
    exists None. rewrite <-Hs. by rewrite set_Store_Store.
Qed.

(** From the call of the chain on. *)
Lemma release_final chain req id w :
  (∃ s, self (final ((call_chain chain req ;;
                      through_Store (StoreRemove id) (IDStoreValue_Remove id) ;;
                      mret ()) w))
        = set_Store s (self w)) ∧
  (calls (final ((call_chain chain req ;;
                  through_Store (StoreRemove id) (IDStoreValue_Remove id) ;;
                  mret ()) w))
   = calls w ++ [ChainCall] ∨
   calls (final ((call_chain chain req ;;
                  through_Store (StoreRemove id) (IDStoreValue_Remove id) ;;
                  mret ()) w))
   = calls w ++ [ChainCall; StoreRemove id]).
Proof.
  destruct (call_chain_final chain req w) as [Hc Hself].
  destruct (call_chain chain req w) as [[] w2|p w2|w2] eqn:Hchain; simpl in Hc, Hself.
  - erewrite bind_Returned; [|done].
    destruct (through_Store_final (StoreRemove id) (IDStoreValue_Remove id) w2)
      as [[s Hs] Hr].
    destruct (through_Store (StoreRemove id) (IDStoreValue_Remove id) w2)
      as [a w3|p w3|w3] eqn:Hrem; simpl in Hs, Hr;
      [erewrite bind_Returned by done|erewrite bind_Panicked by done
      |erewrite bind_Blocked by done]; simpl;
      (split; [exists s; by rewrite Hs, Hself|]);
      rewrite Hr, Hc, <-(assoc_L (++)); destruct (Store (self w2)); simpl;
      rewrite ?app_nil_r; auto.
  - erewrite bind_Panicked; [|done]. simpl. rewrite Hc, Hself. eauto.
  - erewrite bind_Blocked; [|done]. simpl. rewrite Hc, Hself. eauto.
Qed.

(** The filter has returned to its caller. *)
Definition has_returned {S A} (o : Outcome S A) : bool :=
  match o with
  | Returned _ _ => true
  | Panicked _ _ | Blocked _ => false
  end.

(** The sequences of calls the filter can make on a request: nine, by
    the method, the token, what [Save] answers and how far the filter
    gets.  After three of them the filter has not returned. *)
Definition Filter_calls ri req (returned : bool) (cs : list Call) : Prop :=
  cs = [ReqMethod; ChainCall] ∨
  cs = [ReqMethod; ReqHeader (HeaderName ri); ChainCall] ∨
  cs = [ReqMethod; ReqHeader (HeaderName ri);
        RespReportBadRequest; RespSend "error" (Error ri)] ∨
  (returned = false ∧
   cs = [ReqMethod; ReqHeader (HeaderName ri); ReqRemoteIP]) ∨
  (returned = false ∧
   cs = [ReqMethod; ReqHeader (HeaderName ri); ReqRemoteIP;
         StoreSave (scope_id (RemoteIP req) (Header req (HeaderName ri)))]) ∨
  cs = [ReqMethod; ReqHeader (HeaderName ri); ReqRemoteIP;
        StoreSave (scope_id (RemoteIP req) (Header req (HeaderName ri)));
        RespReportForbidden; RespSend "error" (ErrorOverlap ri)] ∨
  (∃ lg e v v',
     returned = false ∧ e ≠ ErrRequestIDExist ∧
     Store ri = Some v ∧
     IDStoreValue_Save (scope_id (RemoteIP req) (Header req (HeaderName ri))) v
     = Returned (Some e) v' ∧
     cs = [ReqMethod; ReqHeader (HeaderName ri); ReqRemoteIP;
           StoreSave (scope_id (RemoteIP req) (Header req (HeaderName ri)));
           LoggerPanicln lg (Some e)]) ∨
  cs = [ReqMethod; ReqHeader (HeaderName ri); ReqRemoteIP;
        StoreSave (scope_id (RemoteIP req) (Header req (HeaderName ri)));
        ChainCall] ∨
  cs = [ReqMethod; ReqHeader (HeaderName ri); ReqRemoteIP;
        StoreSave (scope_id (RemoteIP req) (Header req (HeaderName ri)));
        ChainCall;
        StoreRemove (scope_id (RemoteIP req) (Header req (HeaderName ri)))].

Lemma through_Store_Returned_inv {A} c (method : Go IDStoreValue A) w a w' :
  through_Store c method w = Returned a w' →
  ∃ v v', Store (self w) = Some v ∧ method v = Returned a v'.
Proof.
  destruct (Store (self w)) as [v|] eqn:Hs.
  - destruct (method v) as [a' v'|p v'|v'] eqn:Hm.
    + erewrite through_Store_Returned by done. intros [= <- _]. eauto.
    + by erewrite through_Store_Panicked by done.
    + by erewrite through_Store_Blocked by done.
  - by rewrite through_Store_nil by done.
Qed.

Lemma RequestId_Filter_shape req chain w :
  (∃ s, self (final (RequestId_Filter req chain w)) = set_Store s (self w)) ∧
  Filter_calls (self w) req (has_returned (RequestId_Filter req chain w))
               (made w (RequestId_Filter req chain w)).
Proof.
  unfold Filter_calls.
  destruct (decide (Method req = "GET")) as [Hget|Hget].
  { assert (RequestId_Filter req chain w
            = call_chain chain req
                {| self := self w; calls := calls w ++ [ReqMethod] |}) as ->.
    { unfold RequestId_Filter, req_Method, record. go_unfold.
      by rewrite bool_decide_eq_true_2. }
    destruct (call_chain_final chain req
                {| self := self w; calls := calls w ++ [ReqMethod] |}) as [Hc Hself].
    simpl in Hc, Hself. rewrite <-(assoc_L (++)) in Hc.
    split; [eauto|]. left. by apply made_app. }
  destruct (decide (Header req (HeaderName (self w)) = "")) as [Hno|Htok].
  { assert (RequestId_Filter req chain w
            = (if PassingOnNoId (self w) then call_chain chain req
               else resp_ReportBadRequest ;; resp_Send "error" (Error (self w)))
                {| self := self w;
                   calls := calls w ++ [ReqMethod; ReqHeader (HeaderName (self w))] |})
      as ->.
    { unfold RequestId_Filter, req_Method, req_Header, on_self, record. go_unfold.
      simpl. rewrite bool_decide_eq_false_2 by done. simpl.
      rewrite bool_decide_eq_true_2 by done. by rewrite <-!(assoc_L (++)). }
    destruct (PassingOnNoId (self w)).
    - destruct (call_chain_final chain req
                  {| self := self w;
                     calls := calls w ++ [ReqMethod; ReqHeader (HeaderName (self w))] |})
        as [Hc Hself].
      simpl in Hc, Hself. rewrite <-(assoc_L (++)) in Hc.
      split; [eauto|]. right; left. by apply made_app.
    - unfold resp_ReportBadRequest, resp_Send, record. go_unfold. simpl.
      split; [exists (Store (self w)); by rewrite set_Store_Store|].
      right; right; left. apply made_app. simpl. by rewrite <-!(assoc_L (++)). }
  rewrite RequestId_Filter_claim by done.
  set (id := scope_id (RemoteIP req) (Header req (HeaderName (self w)))).
  set (w1 := {| self := self w;
                calls := calls w ++ [ReqMethod; ReqHeader (HeaderName (self w));
                                     ReqRemoteIP] |}).
  destruct (through_Store_final (StoreSave id) (IDStoreValue_Save id) w1)
    as [[s1 Hs1] Hc1].
  simpl in Hs1, Hc1.
  destruct (through_Store (StoreSave id) (IDStoreValue_Save id) w1)
    as [e w2|p w2|w2] eqn:Hsave; simpl in Hs1, Hc1.
  - erewrite bind_Returned; [|done].
    destruct (through_Store_Returned_inv _ _ _ _ _ Hsave) as (v & v' & Hv & Hsv).
    simpl in Hv. rewrite Hv in Hc1.
    rewrite <-(assoc_L (++)) in Hc1. simpl in Hc1.
    destruct (decide (e = Some ErrRequestIDExist)) as [->|Hexist].
    + rewrite bool_decide_eq_true_2 by done.
      unfold resp_ReportForbidden, resp_Send, record. go_unfold. simpl.
      split; [by exists s1|].
      do 5 right; left. apply made_app. simpl. rewrite Hc1.
      by rewrite <-!(assoc_L (++)).
    + rewrite bool_decide_eq_false_2 by done.
      destruct e as [e|].
      * rewrite bool_decide_eq_true_2 by done.
        unfold logger_Panicln, on_self, record. go_unfold. simpl. rewrite Hs1. simpl.
        destruct (logger (self w)) as [lg|]; simpl.
        -- split; [by exists s1|]. do 6 right; left. exists lg, e, v, v'.
           split; [done|]. split; [congruence|]. split; [done|]. split; [done|].
           apply made_app. simpl. rewrite Hc1. by rewrite <-!(assoc_L (++)).
        -- split; [by exists s1|]. do 4 right; left. split; [done|].
           by apply made_app.
      * rewrite bool_decide_eq_false_2 by (by intros []).
        destruct (release_final chain req id w2) as [[s Hs] Hc].
        split; [exists s; by rewrite Hs, Hs1|].
        destruct Hc as [Hc|Hc]; [do 7 right; left|do 8 right];
          apply made_app; rewrite Hc, Hc1; by rewrite <-!(assoc_L (++)).
  - erewrite bind_Panicked; [|done]. simpl. split; [by exists s1|].
    destruct (Store (self w)); simpl in Hc1.
    + do 4 right; left. split; [done|]. apply made_app. simpl. rewrite Hc1.
      by rewrite <-!(assoc_L (++)).
    + do 3 right; left. split; [done|]. apply made_app. simpl.
      by rewrite Hc1, app_nil_r.
  - erewrite bind_Blocked; [|done]. simpl. split; [by exists s1|].
    destruct (Store (self w)); simpl in Hc1.
    + do 4 right; left. split; [done|]. apply made_app. simpl. rewrite Hc1.
      by rewrite <-!(assoc_L (++)).
    + do 3 right; left. split; [done|]. apply made_app. simpl.
      by rewrite Hc1, app_nil_r.
Qed.

Ltac filter_shapes req chain w Hret Hcs :=
  let Hshape := fresh "Hshape" in
  destruct (RequestId_Filter_shape req chain w) as [_ Hshape];
  unfold Filter_calls in Hshape;
  destruct Hshape
    as [Hcs|[Hcs|[Hcs|[[Hret Hcs]|[[Hret Hcs]|[Hcs|
        [(?lg & ?e & ?v & ?v' & Hret & ?He & ?Hv & ?Hsv & Hcs)|[Hcs|Hcs]]]]]]]].

(** X7: the filter never touches its own configuration: whatever the
    request, the chain and the outcome, [HeaderName], [PassingOnNoId],
    [Error], [ErrorOverlap] and the logger are afterwards what they were;
    only the store can have changed. *)
Theorem RequestId_Filter_keeps_configuration req chain w :
  HeaderName (self (final (RequestId_Filter req chain w))) = HeaderName (self w) ∧
  PassingOnNoId (self (final (RequestId_Filter req chain w))) = PassingOnNoId (self w) ∧
  Error (self (final (RequestId_Filter req chain w))) = Error (self w) ∧
  ErrorOverlap (self (final (RequestId_Filter req chain w))) = ErrorOverlap (self w) ∧
  logger (self (final (RequestId_Filter req chain w))) = logger (self w).
Proof.
  destruct (RequestId_Filter_shape req chain w) as [[s ->] _]. done.
Qed.

(** X8: the filter forwards a request or answers it, never both: it calls
    the chain at most once, and when it does it makes no call on the
    response; and when it returns it has either called the chain or sent
    one of its two error messages. *)
Theorem RequestId_Filter_forwards_or_answers req chain w :
  (length (filter (λ c, c = ChainCall) (made w (RequestId_Filter req chain w))) ≤ 1)%nat ∧
  (ChainCall ∈ made w (RequestId_Filter req chain w) →
     (RespReportBadRequest ∉ made w (RequestId_Filter req chain w)) ∧
     (RespReportForbidden ∉ made w (RequestId_Filter req chain w)) ∧
     (∀ key value, RespSend key value ∉ made w (RequestId_Filter req chain w))) ∧
  (∀ w', RequestId_Filter req chain w = Returned () w' →
     ChainCall ∈ made w (RequestId_Filter req chain w) ∨
     RespSend "error" (Error (self w)) ∈ made w (RequestId_Filter req chain w) ∨
     RespSend "error" (ErrorOverlap (self w)) ∈ made w (RequestId_Filter req chain w)).
Proof.
  filter_shapes req chain w Hret Hcs; rewrite Hcs; clear Hcs;
    (split; [simpl; lia|split]);
    try (intros w' Hw'; rewrite Hw' in Hret; discriminate Hret);
    try (intros _; not_called);
    try (intros Hin; exfalso; revert Hin; not_called);
    intros w' _; rewrite !elem_of_cons; auto 10.
Qed.

(** X9: the filter calls the store for the key of the request it is serving
    and for no other, and reads no header but [HeaderName]; and it calls
    [Remove] only as its last call, right after a [Save] of the same key
    and the call of the chain. *)
Theorem RequestId_Filter_store_protocol req chain w :
  (∀ id, StoreSave id ∈ made w (RequestId_Filter req chain w) ∨
         StoreRemove id ∈ made w (RequestId_Filter req chain w) →
         id = scope_id (RemoteIP req) (Header req (HeaderName (self w)))) ∧
  (∀ name, ReqHeader name ∈ made w (RequestId_Filter req chain w) →
           name = HeaderName (self w)) ∧
  (∀ id, StoreRemove id ∈ made w (RequestId_Filter req chain w) →
         ∃ before, made w (RequestId_Filter req chain w)
                   = before ++ [StoreSave id; ChainCall; StoreRemove id]).
Proof.
  filter_shapes req chain w Hret Hcs; rewrite Hcs; clear Hcs;
    (split; [|split]); intros x; rewrite ?elem_of_cons, ?elem_of_nil;
    try (intuition congruence).
  intros [|[|[|[|[|[Hx|]]]]]]; try done. injection Hx as ->.
  by eexists [_; _; _].
Qed.

Lemma IDStoreValue_Save_OfMem id m e v' :
  IDStoreValue_Save id (OfMem m) = Returned e v' →
  ∃ m', MemIDStore_Save id m = Returned e m' ∧ v' = OfMem m'.
Proof.
  unfold IDStoreValue_Save, dispatch. go_unfold. simpl.
  destruct (MemIDStore_Save id m) as [e' m'|p m'|m']; [|done..].
  intros [= <- <-]. eauto.
Qed.

(** X10: over a [MemIDStore] the filter never calls the logger: [Save] there
    answers nil or [ErrRequestIDExist] and nothing else. *)
Theorem RequestId_Filter_MemIDStore_never_logs req chain w m :
  Store (self w) = Some (OfMem m) →
  ¬ logged (made w (RequestId_Filter req chain w)).
Proof.
  intros Hs (lg' & e' & Hin). revert Hin.
  filter_shapes req chain w Hret Hcs; rewrite Hcs; clear Hcs; try not_called.
  rewrite Hs in Hv. injection Hv as <-.
  apply IDStoreValue_Save_OfMem in Hsv as (m' & Hsave & _).
  apply MemIDStore_Save_Returned in Hsave as (r & _ & [(_ & [=] & _)|(_ & [= ->] & _)]).
  done.
Qed.

(** X11: a filter whose [Store] is nil, as it is before [Init], panics on the
    first request that is not a GET and carries a token: it reads the
    request and fails on the call of [Save], having called neither the
    chain nor the response. *)
Theorem RequestId_Filter_nil_Store req chain w :
  Method req ≠ "GET" →
  Header req (HeaderName (self w)) ≠ "" →
  Store (self w) = None →
  RequestId_Filter req chain w
  = Panicked NilDereference
      {| self := self w;
         calls := calls w ++ [ReqMethod; ReqHeader (HeaderName (self w)); ReqRemoteIP] |}.
Proof.
  intros Hm Hh Hs. rewrite RequestId_Filter_claim by done.
  erewrite bind_Panicked; [done|]. by apply through_Store_nil.
Qed.

(** X12: over an initialised [MemIDStore] on which the key of the request is
    free, and with a chain that returns and leaves the store alone, the
    filter returns and leaves the filter and its store exactly as it found
    them: the key it claimed is released.  The same request can be served
    again at once. *)
Theorem RequestId_Filter_leaves_store_as_found req chain w m :
  Method req ≠ "GET" →
  Header req (HeaderName (self w)) ≠ "" →
  Store (self w) = Some (OfMem m) →
  initialised m → idle m →
  ¬ member (scope_id (RemoteIP req) (Header req (HeaderName (self w)))) m →
  (∀ s, chain req s = Returned () s) →
  RequestId_Filter req chain w
  = Returned ()
      {| self := self w;
         calls := calls w ++
           [ReqMethod; ReqHeader (HeaderName (self w)); ReqRemoteIP;
            StoreSave (scope_id (RemoteIP req) (Header req (HeaderName (self w))));
            ChainCall;
            StoreRemove (scope_id (RemoteIP req) (Header req (HeaderName (self w))))] |}.
Proof.
  intros Hm Hh Hs Hinit Hidle Hfree Hchain.
  destruct m as [[r|] l]; [|by destruct Hinit].
  unfold idle in Hidle; simpl in Hidle; subst l.
  set (id := scope_id (RemoteIP req) (Header req (HeaderName (self w)))) in *.
  assert (r !! id = None) as Hid.
  { rewrite member_Some in Hfree. destruct (r !! id) eqn:E; [|done].
    destruct Hfree; eauto. }
  rewrite RequestId_Filter_claim by done. fold id.
  erewrite bind_Returned;
    [|eapply through_Store_Returned; [exact Hs|];
      unfold IDStoreValue_Save, dispatch; go_unfold; simpl;
      by rewrite MemIDStore_Save_absent].
  simpl. erewrite bind_Returned; [|by apply call_chain_Returned].
  erewrite bind_Returned;
    [|eapply through_Store_Returned; reflexivity].
  simpl. go_unfold. rewrite delete_insert_id by done.
  rewrite !set_Store_set_Store, <-Hs, set_Store_Store.
  by rewrite <-!(assoc_L (++)).
Qed.
End Shape.

(** ** Init, once more *)

Lemma defval_String_filled s def : def ≠ "" → defval_String s def ≠ "".
Proof. intros Hdef. unfold defval_String. by case_bool_decide. Qed.

Lemma defval_String_kept s def : s ≠ "" → defval_String s def = s.
Proof. intros Hs. unfold defval_String. by case_bool_decide. Qed.

Section Ready.
Context {X : Type} `{!IDStore X}.

(** X13: on a filter whose [Store] is nil or a [MemIDStore], in whatever
    state, [Init] returns nil and leaves an empty, initialised
    [MemIDStore] with a free mutex (keys held before are forgotten), the
    logger of the environment, and no empty message or header name,
    keeping those that were set.  The filter is then ready: any request
    that is not a GET and carries a token gets to the chain. *)
Theorem RequestId_Init_makes_ready (env : Enviroment) (w : @World X) :
  (Store (self w) = None ∨ ∃ m, Store (self w) = Some (OfMem m)) →
  ∃ w', RequestId_Init env w = Returned nil_error w' ∧
        Store (self w') = Some (OfMem {| requests := Some ∅; lock := Free |}) ∧
        logger (self w') = EnvLogger env ∧
        PassingOnNoId (self w') = PassingOnNoId (self w) ∧
        HeaderName (self w') ≠ "" ∧ Error (self w') ≠ "" ∧ ErrorOverlap (self w') ≠ "" ∧
        (HeaderName (self w) ≠ "" → HeaderName (self w') = HeaderName (self w)) ∧
        (Error (self w) ≠ "" → Error (self w') = Error (self w)) ∧
        (ErrorOverlap (self w) ≠ "" → ErrorOverlap (self w') = ErrorOverlap (self w)) ∧
        (∀ req chain,
           Method req ≠ "GET" → Header req (HeaderName (self w')) ≠ "" →
           ChainCall ∈ made w' (RequestId_Filter req chain w')).
Proof.
  intros Hstore.
  assert (RequestId_Init env w
          = Returned nil_error
              {| self :=
                   {| Store := Some (OfMem {| requests := Some ∅; lock := Free |});
                      HeaderName := defval_String (HeaderName (self w)) "X-Request-Id";
                      PassingOnNoId := PassingOnNoId (self w);
                      Error := defval_String (Error (self w))
                                 "header value X-Request-Id can't be empty";
                      ErrorOverlap := defval_String (ErrorOverlap (self w))
                                        "request already accepted before, please wait";
                      logger := EnvLogger env |};
                 calls := calls w ++ [StoreInit; EnvLoggerCall] |}) as Hrun.
  { unfold RequestId_Init, through_Store, on_Store, on_self, record, set_Store.
    go_unfold. simpl.
    destruct Hstore as [->|[m ->]]; simpl; by rewrite <-(assoc_L (++)). }
  eexists. split; [exact Hrun|]. simpl.
  split; [done|]. split; [done|]. split; [done|].
  split; [by apply defval_String_filled|]. split; [by apply defval_String_filled|].
  split; [by apply defval_String_filled|].
  split; [apply defval_String_kept|]. split; [apply defval_String_kept|].
  split; [apply defval_String_kept|].
  intros req chain Hm Hh.
  rewrite RequestId_Filter_claim by done.
  erewrite bind_Returned;
    [|eapply through_Store_Returned; [reflexivity|];
      unfold IDStoreValue_Save, dispatch; go_unfold; simpl;
      by rewrite MemIDStore_Save_absent by apply lookup_empty].
  simpl.
  match goal with
  | |- context [(_ ≫= _) ?w1] =>
      destruct (release_calls chain req
                  (scope_id (RemoteIP req)
                     (Header req
                        (defval_String (HeaderName (self w)) "X-Request-Id"))) w1)
        as [cs Hcs]
  end.
  erewrite made_app; [|rewrite Hcs; simpl; rewrite <-!(assoc_L (++)); done].
  rewrite !elem_of_app, !elem_of_cons. tauto.
Qed.
End Ready.

(** X14: [RedisIDStore.Init] returns nil only when it has taken a connection
    from the environment, and then the key of the set is not empty: the
    one that was set, or "RequestID".  When it returns an error the store
    is as it was.  It panics when, and only when, the component found
    under the name is not a [component.Redis], and it never blocks. *)
Theorem RedisIDStore_Init_outcomes (COMP_REDIS : string) (env : Enviroment)
    (r : RedisIDStore) :
  (∀ r', RedisIDStore_Init COMP_REDIS env r = Returned nil_error r' →
         (∃ c, Component env COMP_REDIS = (Some (RedisComponent c), None) ∧
               redis r' = Some c) ∧
         Key r' ≠ "" ∧ (Key r ≠ "" → Key r' = Key r) ∧
         (Key r = "" → Key r' = "RequestID")) ∧
  (∀ e r', RedisIDStore_Init COMP_REDIS env r = Returned (Some e) r' → r' = r) ∧
  (∀ p r', RedisIDStore_Init COMP_REDIS env r = Panicked p r' ↔
           p = TypeAssertionFailed ∧ r' = r ∧
           ∃ name, Component env COMP_REDIS = (Some (OtherComponent name), None)) ∧
  (∀ r', RedisIDStore_Init COMP_REDIS env r ≠ Blocked r').
Proof.
  unfold RedisIDStore_Init.
  destruct (Component env COMP_REDIS) as [[[c|name]|] [e|]]; simpl;
    (split; [|split; [|split]]); try done.
  - intros e' r' [= _ <-]. done.
  - intros p r'. split; [done|]. by intros (_ & _ & name & [=]).
  - intros r' [= <-]. simpl. split; [eauto|].
    split; [by apply defval_String_filled|].
    split; [apply defval_String_kept|]. by intros ->.
  - intros p r'. split; [done|]. by intros (_ & _ & name & [=]).
  - intros e' r' [= _ <-]. done.
  - intros p r'. split; [done|]. by intros (_ & _ & name' & [=]).
  - intros p r'. split; [intros [= <- <-]; eauto|]. by intros (-> & -> & _).
  - intros e' r' [= _ <-]. done.
  - intros p r'. split; [done|]. by intros (_ & _ & name & [=]).
  - intros e' r' [= _ <-]. done.
  - intros p r'. split; [done|]. by intros (_ & _ & name & [=]).
Qed.

(** ** The key of a request, once more *)

Lemma String_app_cons a s t : String a s +:+ t = String a (s +:+ t).
Proof. reflexivity. Qed.

Lemma String_app_empty t : "" +:+ t = t.
Proof. reflexivity. Qed.

(** X15: one client's keys differ when its tokens do; and among clients whose
    addresses hold no colon (IPv4 addresses, say), a key gives back both
    the address and the token: no two requests share one unless they come
    from the same address with the same token. *)
Theorem scope_id_injective (ip1 ip2 t1 t2 : string) :
  (ip1 = ip2 → scope_id ip1 t1 = scope_id ip2 t2 → t1 = t2) ∧
  (occurs delimiter ip1 = false → occurs delimiter ip2 = false →
   scope_id ip1 t1 = scope_id ip2 t2 → ip1 = ip2 ∧ t1 = t2).
Proof.
  unfold scope_id. split.
  - intros -> Heq. apply (inj (String.app ip2)) in Heq.
    rewrite !String_app_cons, !String_app_empty in Heq. by injection Heq.
  - revert ip2. induction ip1 as [|a ip1 IH]; intros [|b ip2]; simpl; intros H1 H2 Heq;
      rewrite ?String_app_cons, ?String_app_empty in Heq.
    + by injection Heq as ->.
    + injection Heq as <- _. by rewrite bool_decide_eq_true_2 in H2.
    + injection Heq as -> _. by rewrite bool_decide_eq_true_2 in H1.
    + injection Heq as -> Heq.
      apply orb_false_iff in H1 as [_ H1]. apply orb_false_iff in H2 as [_ H2].
      destruct (IH ip2 H1 H2 Heq) as [-> ->]. done.
Qed.

(** ** The further properties at work *)

(** A request without a token is answered, not forwarded. *)
Lemma RequestId_Filter_forwards_or_answers_witness :
  ChainCall ∈ made (serving []) (RequestId_Filter (post "1.2.3.4" "") handler (serving [])) ∨
  RespSend "error" (Error (self (serving [])))
    ∈ made (serving []) (RequestId_Filter (post "1.2.3.4" "") handler (serving [])) ∨
  RespSend "error" (ErrorOverlap (self (serving [])))
    ∈ made (serving []) (RequestId_Filter (post "1.2.3.4" "") handler (serving [])).
Proof.
  eapply (proj2 (proj2 (RequestId_Filter_forwards_or_answers
                          (post "1.2.3.4" "") handler (serving [])))).
  vm_compute. reflexivity.
Defined.

Lemma RequestId_Filter_store_protocol_witness :
  ∃ before,
    made (serving []) (RequestId_Filter (post "1.2.3.4" "abc") handler (serving []))
    = before ++ [StoreSave "1.2.3.4:abc"; ChainCall; StoreRemove "1.2.3.4:abc"].
Proof.
  apply (proj2 (proj2 (RequestId_Filter_store_protocol
                         (post "1.2.3.4" "abc") handler (serving []))) "1.2.3.4:abc").
  by_evaluation.
Defined.

Lemma RequestId_Filter_MemIDStore_never_logs_witness :
  Store (self (serving ["1.2.3.4:abc"])) = Some (OfMem (mem_store ["1.2.3.4:abc"])) ∧
  ¬ logged (made (serving ["1.2.3.4:abc"])
              (RequestId_Filter (post "1.2.3.4" "abc") handler_panicking
                 (serving ["1.2.3.4:abc"]))).
Proof.
  split; [reflexivity|].
  apply (RequestId_Filter_MemIDStore_never_logs (post "1.2.3.4" "abc") handler_panicking
           (serving ["1.2.3.4:abc"]) (mem_store ["1.2.3.4:abc"])).
  reflexivity.
Defined.

(** A filter that was configured by hand and never initialised. *)
Lemma RequestId_Filter_nil_Store_witness :
  RequestId_Filter (post "1.2.3.4" "abc") handler
    {| self := set_Store None (self (serving [])); calls := [] |}
  = Panicked NilDereference
      {| self := set_Store None (self (serving []));
         calls := [ReqMethod; ReqHeader "X-Request-Id"; ReqRemoteIP] |}.
Proof.
  apply (RequestId_Filter_nil_Store (post "1.2.3.4" "abc") handler
           {| self := set_Store None (self (serving [])); calls := [] |}).
  - by_evaluation.
  - by_evaluation.
  - reflexivity.
Defined.

(** Served while another client's request with the same token is in
    flight; nothing of it stays behind. *)
Lemma RequestId_Filter_leaves_store_as_found_witness :
  ∃ w', RequestId_Filter (post "1.2.3.4" "abc") handler (serving ["5.6.7.8:abc"])
        = Returned () w' ∧
        self w' = self (serving ["5.6.7.8:abc"]).
Proof.
  eexists. split.
  - apply (RequestId_Filter_leaves_store_as_found (post "1.2.3.4" "abc") handler
             (serving ["5.6.7.8:abc"]) (mem_store ["5.6.7.8:abc"])).
    + by_evaluation.
    + by_evaluation.
    + reflexivity.
    + by_evaluation.
    + reflexivity.
    + by_evaluation.
    + intros s. reflexivity.
  - reflexivity.
Defined.

Lemma RequestId_Init_makes_ready_witness :
  ∃ w', RequestId_Init env_with_redis (fresh None) = Returned nil_error w' ∧
        HeaderName (self w') = "X-Request-Id" ∧
        ChainCall ∈ made w' (RequestId_Filter (post "1.2.3.4" "abc") handler_panicking w').
Proof.
  destruct (RequestId_Init_makes_ready env_with_redis (fresh None))
    as (w' & Hrun & _ & _ & _ & _ & _ & _ & _ & _ & _ & Hready); [by left|].
  exists w'. split; [exact Hrun|].
  assert (HeaderName (self w') = "X-Request-Id") as Hname.
  { assert (Returned nil_error w'
            = Returned nil_error (final (RequestId_Init env_with_redis (fresh None))))
      as [= ->] by (rewrite <-Hrun; reflexivity).
    reflexivity. }
  split; [exact Hname|]. apply Hready.
  - by_evaluation.
  - rewrite Hname. by_evaluation.
Defined.

Lemma RedisIDStore_Init_outcomes_witness :
  ∃ r', RedisIDStore_Init COMP_REDIS env_with_redis {| Key := ""; redis := None |}
        = Returned nil_error r' ∧
        Key r' = "RequestID" ∧ redis r' = Some (RedisHandle 0).
Proof.
  eexists. split; [reflexivity|].
  destruct (proj1 (RedisIDStore_Init_outcomes COMP_REDIS env_with_redis
                     {| Key := ""; redis := None |}) _ eq_refl)
    as ((c & Hc & Hredis) & _ & _ & Hkey).
  split; [exact (Hkey eq_refl)|]. rewrite Hredis. f_equal.
  injection Hc as <-. reflexivity.
Defined.

Lemma scope_id_injective_witness :
  occurs delimiter "1.2.3.4" = false ∧
  scope_id "1.2.3.4" "abc" = scope_id "1.2.3.4" "abc" ∧
  "1.2.3.4" = "1.2.3.4" ∧ "abc" = "abc".
Proof.
  split; [reflexivity|]. split; [reflexivity|].
  apply (proj2 (scope_id_injective "1.2.3.4" "1.2.3.4" "abc" "abc"));
    reflexivity.
Defined.

(** X16: [RedisIDStore.Destroy] forgets the connection and keeps the key of
    the set, so that a store that was initialised, then destroyed, is put
    back by [Init] (in the same environment) exactly as the first [Init]
    left it. *)
Theorem RedisIDStore_Init_Destroy_Init (COMP_REDIS : string) (env : Enviroment)
    (r r1 : RedisIDStore) :
  RedisIDStore_Init COMP_REDIS env r = Returned nil_error r1 →
  ∃ r2, RedisIDStore_Destroy r1 = Returned () r2 ∧
        redis r2 = None ∧ Key r2 = Key r1 ∧
        RedisIDStore_Init COMP_REDIS env r2 = Returned nil_error r1.
Proof.
  unfold RedisIDStore_Init, RedisIDStore_Destroy.
  destruct (Component env COMP_REDIS) as [[[c|name]|] [e|]]; simpl; try done.
  intros [= <-]. eexists. split; [done|]. simpl. split; [done|]. split; [done|].
  do 2 f_equal. apply defval_String_kept. by apply defval_String_filled.
Qed.

Lemma RedisIDStore_Init_Destroy_Init_witness :
  RedisIDStore_Init COMP_REDIS env_with_redis {| Key := "ids"; redis := None |}
  = Returned nil_error {| Key := "ids"; redis := Some (RedisHandle 0) |} ∧
  RedisIDStore_Init COMP_REDIS env_with_redis
    (final (RedisIDStore_Destroy {| Key := "ids"; redis := Some (RedisHandle 0) |}))
  = Returned nil_error {| Key := "ids"; redis := Some (RedisHandle 0) |}.
Proof.
  assert (RedisIDStore_Init COMP_REDIS env_with_redis {| Key := "ids"; redis := None |}
          = Returned nil_error {| Key := "ids"; redis := Some (RedisHandle 0) |}) as Hinit
    by reflexivity.
  split; [exact Hinit|].
  destruct (RedisIDStore_Init_Destroy_Init _ _ _ _ Hinit) as (r2 & Hd & _ & _ & Hagain).
  rewrite Hd. exact Hagain.
Defined.
